(** * govanityurls: path resolution, wildcard rules and configuration loading

    A shallow embedding of the Go sources of govanityurls:
    - [find] embeds [pathConfigSet.find] (handler package, part_003) and
      [PathConfigs.find] (part_001), which share one algorithm;
    - module [Rules] embeds [findStructure], [parsePathRules],
      [pathConfigRuleSet.find] and [splitSubpath] of handler.go;
    - module [Handler003] embeds [New] of the handler package;
    - module [Handler001] embeds [newHandler], [ServeHTTP] and
      [StringInSlices] of part_001.

    Go strings are byte strings; they are modelled as [string] (a list of
    8-bit [ascii]), and [len] is Go's [len]. Go maps are iterated in an
    unspecified order; a map is modelled as an association list listed in
    one iteration order, and statements quantify over all lists. *)

From Stdlib Require Import String Ascii List Bool Arith Lia ZArith NArith.
From Stdlib Require Import Permutation Sorted.
From Stdlib Require Import DecimalString Classical_Prop.
Import ListNotations.
Open Scope string_scope.

(** ** The [strings] package *)

(** Go's [len] on a string: its number of bytes. *)
Definition len (s : string) : nat := String.length s.

(** [strings.HasPrefix(s, prefix)] *)
Fixpoint HasPrefix (s prefix : string) : bool :=
  match prefix, s with
  | EmptyString, _ => true
  | String c p, String d s' => Ascii.eqb c d && HasPrefix s' p
  | String _ _, EmptyString => false
  end.

(** [s[n:]] (callers guarantee [n <= len(s)]) *)
Fixpoint str_drop (n : nat) (s : string) : string :=
  match n, s with
  | O, _ => s
  | S n', String _ s' => str_drop n' s'
  | S _, EmptyString => EmptyString
  end.

(** [s[:n]] *)
Fixpoint str_take (n : nat) (s : string) : string :=
  match n, s with
  | O, _ => EmptyString
  | S n', String c s' => String c (str_take n' s')
  | S _, EmptyString => EmptyString
  end.

(** [strings.TrimPrefix(s, prefix)] *)
Definition TrimPrefix (s prefix : string) : string :=
  if HasPrefix s prefix then str_drop (len prefix) s else s.

(** [strings.HasSuffix(s, suffix)] *)
Definition HasSuffix (s suffix : string) : bool :=
  Nat.leb (len suffix) (len s)
  && String.eqb (str_drop (len s - len suffix) s) suffix.

(** [strings.TrimSuffix(s, suffix)] *)
Definition TrimSuffix (s suffix : string) : string :=
  if HasSuffix s suffix then str_take (len s - len suffix) s else s.

(** [strings.Index(s, sub)]: [None] stands for Go's [-1]. *)
Fixpoint Index (s sub : string) : option nat :=
  if HasPrefix s sub then Some 0
  else match s with
       | EmptyString => None
       | String _ s' => option_map S (Index s' sub)
       end.

(** [strings.Contains(s, sub)] *)
Definition Contains (s sub : string) : bool :=
  match Index s sub with Some _ => true | None => false end.

(** [strings.ContainsAny(s, chars)] *)
Fixpoint ContainsAny (s chars : string) : bool :=
  match s with
  | EmptyString => false
  | String c s' => Contains chars (String c EmptyString) || ContainsAny s' chars
  end.

(** [strings.Replace(s, old, new, -1)] for a non-empty [old]: every
    non-overlapping occurrence, scanned left to right, is replaced. With an
    empty [old], Go inserts [new] before every character and at the end. *)
Fixpoint replace_loop (fuel : nat) (s old new : string) : string :=
  match fuel with
  | O => s
  | S fuel' =>
      match s with
      | EmptyString => EmptyString
      | String c s' =>
          if HasPrefix s old
          then new ++ replace_loop fuel' (str_drop (len old) s) old new
          else String c (replace_loop fuel' s' old new)
      end
  end.

Fixpoint insert_everywhere (s new : string) : string :=
  match s with
  | EmptyString => new
  | String c s' => new ++ String c (insert_everywhere s' new)
  end.

Definition Replace (s old new : string) : string :=
  match old with
  | EmptyString => insert_everywhere s new
  | _ => replace_loop (len s) s old new
  end.

(** Go's string comparison: bytewise lexicographic order. *)
Fixpoint str_ltb (a b : string) : bool :=
  match a, b with
  | EmptyString, EmptyString => false
  | EmptyString, String _ _ => true
  | String _ _, EmptyString => false
  | String c a', String d b' =>
      let nc := N_of_ascii c in
      let nd := N_of_ascii d in
      if (nc <? nd)%N then true
      else if (nd <? nc)%N then false
      else str_ltb a' b'
  end.

(** [a >= b] *)
Definition str_geb (a b : string) : bool := negb (str_ltb a b).

(** ** [sort.Search] *)

(** The loop of [sort.Search]: [h := int(uint(i+j) >> 1)]; each round
    shrinks [j - i], so [n + 1] rounds always reach [i = j]. *)
Fixpoint search_loop (fuel : nat) (f : nat -> bool) (i j : nat) : nat :=
  match fuel with
  | O => i
  | S fuel' =>
      if Nat.ltb i j then
        let h := (i + j) / 2 in
        if negb (f h) then search_loop fuel' f (h + 1) j
        else search_loop fuel' f i h
      else i
  end.

Definition Search (n : nat) (f : nat -> bool) : nat :=
  search_loop (S n) f 0 n.

(** ** Longest-prefix lookup over the sorted static mounts *)

Section Find.
Variable A : Type.
(** the [path] (resp. [Path]) field of a mount *)
Variable path_of : A -> string.

(** the slow-path loop over [pset[0:max]]: [best] is [bestMatchConfig],
    [sub] is the named result [subpath] and [shortest] is
    [lenShortestSubpath]. *)
Fixpoint slow_loop (ps : list A) (path : string)
    (best : option A) (sub : string) (shortest : nat) : option A * string :=
  match ps with
  | [] => (best, sub)
  | p :: ps' =>
      if Nat.leb (len path) (len (path_of p)) then
        slow_loop ps' path best sub shortest
      else
        let sSubpath := TrimPrefix path (path_of p) in
        if Nat.ltb (len sSubpath) shortest then
          slow_loop ps' path (Some p) sSubpath (len sSubpath)
        else slow_loop ps' path best sub shortest
  end.

Definition find (pset : list A) (path : string) : option A * string :=
  let i := Search (List.length pset) (fun k =>
             match nth_error pset k with
             | Some p => str_geb (path_of p) path
             | None => false
             end) in
  let slow := slow_loop (firstn i pset) path None "" (len path) in
  let exact :=
    match nth_error pset i with
    | Some p => if String.eqb (path_of p) path then Some p else None
    | None => None
    end in
  match exact with
  | Some p => (Some p, "")
  | None =>
      match i with
      | S i' =>
          match nth_error pset i' with
          | Some p =>
              if HasPrefix path (path_of p ++ "/")
              then (Some p, str_drop (len (path_of p) + 1) path)
              else slow
          | None => slow
          end
      | O => slow
      end
  end.
End Find.

Arguments slow_loop {A} path_of ps path best sub shortest.
Arguments find {A} path_of pset path.

(** ** Shared data *)

(** [pathConfig] of handler.go and of the handler package (part_003). *)
Record pathConfig := mkPathConfig {
  path : string;
  repo : string;
  display : string;
  vcs : string
}.

(** One entry of the [paths] (and [pathrules]) YAML tables: [ConfigPath]
    of the handler package, the anonymous structs of handler.go. *)
Record ConfigPath := mkConfigPath {
  Repo : string;
  Display : string;
  VCS : string
}.

(** The errors returned by the loaders, one constructor per [fmt.Errorf]
    (or [errors.New]) call of the source; the arguments are the values
    the message formats. *)
Inductive load_error :=
| ErrNoPlaceholder (match_ : string)          (* no placeholder found in %q *)
| ErrNotTerminated (match_ : string)          (* placeholder not terminated in %q *)
| ErrEmptyPlaceholder (match_ : string)       (* placeholder is empty in %q *)
| ErrMultiplePlaceholders (match_ : string)   (* multiple placeholders in %q ... *)
| ErrTrailingGarbage (rule suffix placeholder : string)
| ErrRepo (rule : string) (inner : load_error) (* configuration for %v: repo *)
| ErrPlaceholderMismatch (rule placeholder repoPlaceHolder : string)
| ErrUnknownVCS (path vcs : string)
| ErrCannotInferVCS (path repo : string)
| ErrDuplicatePrefix (rule prefix : string)
| ErrCovered (value prefix : string)          (* %v is already covered by %v *)
| ErrNegativeCacheAge.                        (* cache_max_age is negative *)

(** A Go [(T, error)] pair where exactly one side is meaningful. *)
Inductive result (A : Type) :=
| Ok (a : A)
| Err (e : load_error).
Arguments Ok {A} a.
Arguments Err {A} e.

Definition is_ok {A} (r : result A) : bool :=
  match r with Ok _ => true | Err _ => false end.

Definition github_prefix : string := "https://github.com/".
Definition bitbucket_prefix : string := "https://bitbucket.org".

(** [e.VCS != "bzr" && e.VCS != "git" && e.VCS != "hg" && e.VCS != "svn"] *)
Definition unknown_vcs (v : string) : bool :=
  negb (String.eqb v "bzr") && negb (String.eqb v "git")
  && negb (String.eqb v "hg") && negb (String.eqb v "svn").

(** An HTTP request, as far as the handlers read it. *)
Record request := mkRequest {
  URLPath : string;   (* r.URL.Path *)
  ReqHost : string    (* r.Host, returned by defaultHost *)
}.

(** The response a handler writes. Template execution over string fields
    does not fail, so the 500 branch is not represented. *)
Inductive response :=
| RespIndex (host : string) (handlers : list string)
| RespNotFound
| RespRedirect (location : string) (code : Z)
| RespVanity (cacheControl : option string)
             (import subpath repo display vcs : string).

(** [sort.Sort] on a slice ordered by a [Less] function, modelled as an
    insertion sort: its result is a sorted permutation of the input, which
    fixes it up to the order of elements with equal keys. *)
Section Sort.
Variable A : Type.
Variable key : A -> string.

Fixpoint insert_sorted (x : A) (l : list A) : list A :=
  match l with
  | [] => [x]
  | y :: l' => if str_ltb (key y) (key x) then y :: insert_sorted x l'
               else x :: l
  end.

Fixpoint sort_by (l : list A) : list A :=
  match l with
  | [] => []
  | x :: l' => insert_sorted x (sort_by l')
  end.
End Sort.
Arguments insert_sorted {A} key x l.
Arguments sort_by {A} key l.

(** ** handler.go: wildcard path rules *)

Module Rules.

Record pathConfigRule := mkPathConfigRule {
  placeholder : string;
  repoSubst : string;
  rule_display : string;   (* display *)
  rule_vcs : string        (* vcs *)
}.

(** [pathConfigRuleSet], a [map[string]*pathConfigRule] keyed by the
    literal prefix, listed in one iteration order. *)
Definition pathConfigRuleSet := list (string * pathConfigRule).

Definition findStructure (match_ : string)
    : result (string * string * string) :=
  let s := match_ in
  match Index s "{" with
  | None => Err (ErrNoPlaceholder match_)
  | Some i =>
      let prefix := str_take i s in
      let s := str_drop (i + 1) s in
      match Index s "}" with
      | None => Err (ErrNotTerminated match_)
      | Some 0 => Err (ErrEmptyPlaceholder match_)
      | Some i =>
          let placeholder := str_take i s in
          let suffix := str_drop (i + 1) s in
          if ContainsAny suffix "{}" then Err (ErrMultiplePlaceholders match_)
          else Ok (prefix, "{" ++ placeholder ++ "}", suffix)
      end
  end.

(** [paths[prefix]] on the map being built *)
Fixpoint lookup (k : string) (paths : pathConfigRuleSet)
    : option pathConfigRule :=
  match paths with
  | [] => None
  | (k', v) :: rest => if String.eqb k k' then Some v else lookup k rest
  end.

(** The body of the first loop of [parsePathRules] for one rule: the
    rule's literal prefix and its [pathConfigRule]. *)
Definition parse_rule (rule : string) (e : ConfigPath)
    : result (string * pathConfigRule) :=
  match findStructure (TrimSuffix rule "/") with
  | Err err => Err err
  | Ok (prefix, placeholder, suffix) =>
      if negb (String.eqb suffix "") then
        Err (ErrTrailingGarbage rule suffix placeholder)
      else
      match findStructure (TrimSuffix (Repo e) "/") with
      | Err err => Err (ErrRepo rule err)
      | Ok (_, repoPlaceHolder, _) =>
          if negb (String.eqb placeholder repoPlaceHolder) then
            Err (ErrPlaceholderMismatch rule placeholder repoPlaceHolder)
          else
          let pc := mkPathConfigRule placeholder (Repo e) (Display e) (VCS e) in
          if negb (String.eqb (VCS e) "") then
            if unknown_vcs (VCS e) then Err (ErrUnknownVCS rule (VCS e))
            else Ok (prefix, pc)
          else if HasPrefix (Repo e) github_prefix then
            Ok (prefix, mkPathConfigRule placeholder (Repo e) (Display e) "git")
          else Err (ErrCannotInferVCS rule (Repo e))
      end
  end.

(** the first loop, over [pathRules] *)
Fixpoint parse_loop (rules : list (string * ConfigPath))
    (paths : pathConfigRuleSet) : result pathConfigRuleSet :=
  match rules with
  | [] => Ok paths
  | (rule, e) :: rest =>
      match parse_rule rule e with
      | Err err => Err err
      | Ok (prefix, pc) =>
          match lookup prefix paths with
          | Some _ => Err (ErrDuplicatePrefix rule prefix)
          | None => parse_loop rest (paths ++ [(prefix, pc)])%list
          end
      end
  end.

(** the inner loop of the ambiguity check, over [value] *)
Fixpoint cover_inner (prefix : string) (values : pathConfigRuleSet)
    : result unit :=
  match values with
  | [] => Ok tt
  | (value, _) :: rest =>
      if String.eqb value prefix then cover_inner prefix rest
      else if HasPrefix value prefix then Err (ErrCovered value prefix)
      else cover_inner prefix rest
  end.

(** the outer loop of the ambiguity check, over [prefix] *)
Fixpoint cover_outer (prefixes paths : pathConfigRuleSet) : result unit :=
  match prefixes with
  | [] => Ok tt
  | (prefix, _) :: rest =>
      match cover_inner prefix paths with
      | Err err => Err err
      | Ok _ => cover_outer rest paths
      end
  end.

(** [parsePathRules]; [pathRules] is the YAML map listed in iteration
    order (its keys are distinct). *)
Definition parsePathRules (pathRules : list (string * ConfigPath))
    : result pathConfigRuleSet :=
  match parse_loop pathRules [] with
  | Err err => Err err
  | Ok paths =>
      match cover_outer paths paths with
      | Err err => Err err
      | Ok _ => Ok paths
      end
  end.

(** [splitSubpath] turns "foo/bar/baz" into ("foo", "/bar/baz") *)
Definition splitSubpath (name : string) : string * string :=
  match Index name "/" with
  | None => (name, "")
  | Some i => (str_take i name, str_drop i name)
  end.

(** the body of the loop of [pathConfigRuleSet.find] once [prefix]
    matched [path] *)
Definition match_rule (prefix : string) (rule : pathConfigRule) (path : string)
    : pathConfig * string :=
  let name := TrimPrefix path prefix in
  let '(name, subPath) := splitSubpath name in
  let path := TrimSuffix path subPath in
  let repo := Replace (repoSubst rule) (placeholder rule) name in
  let display := Replace (rule_display rule) (placeholder rule) name in
  (mkPathConfig path repo display (rule_vcs rule), subPath).

(** [pathConfigRuleSet.find]: [None] stands for [(nil, "")]. *)
Fixpoint find (prset : pathConfigRuleSet) (path : string)
    : option (pathConfig * string) :=
  match prset with
  | [] => None
  | (prefix, rule) :: rest =>
      if negb (HasPrefix path prefix) then find rest path
      else Some (match_rule prefix rule path)
  end.

End Rules.

(** ** Display inference and Cache-Control formatting *)

(** [fmt.Sprintf("%v %v/tree/master{/dir} %v/blob/master{/dir}/{file}#L{line}", r, r, r)] *)
Definition github_display (r : string) : string :=
  r ++ " " ++ r ++ "/tree/master{/dir} " ++ r ++ "/blob/master{/dir}/{file}#L{line}".

(** [fmt.Sprintf("%v %v/src/default{/dir} %v/src/default{/dir}/{file}#{file}-{line}", r, r, r)] *)
Definition bitbucket_display (r : string) : string :=
  r ++ " " ++ r ++ "/src/default{/dir} " ++ r ++ "/src/default{/dir}/{file}#{file}-{line}".

(** The [display] switch shared by all loaders. *)
Definition infer_display (r d : string) : string :=
  if negb (String.eqb d "") then d
  else if HasPrefix r github_prefix then github_display r
  else if HasPrefix r bitbucket_prefix then bitbucket_display r
  else d.

(** [fmt.Sprintf("public, max-age=%d", n)] for an [int64] *)
Definition max_age_Z (n : Z) : string :=
  "public, max-age=" ++ NilEmpty.string_of_int (Z.to_int n).

(** [fmt.Sprintf("public, max-age=%d", n)] for a [uint64] *)
Definition max_age_N (n : N) : string :=
  "public, max-age=" ++ NilEmpty.string_of_uint (N.to_uint n).

(** ** The handler package (part_003) *)

Module Handler003.

Record Config := mkConfig {
  Host : string;
  CacheAge : option Z;                   (* *int64 *)
  Paths : list (string * ConfigPath)     (* map[string]ConfigPath *)
}.

Record handler := mkHandler {
  hostName : string;
  cacheControl : string;
  paths : list pathConfig
}.

(** the body of the loop of [New] for one entry *)
Definition new_entry (p : string) (e : ConfigPath) : result pathConfig :=
  let d := infer_display (Repo e) (Display e) in
  if negb (String.eqb (VCS e) "") then
    if unknown_vcs (VCS e) then Err (ErrUnknownVCS p (VCS e))
    else Ok (mkPathConfig (TrimSuffix p "/") (Repo e) d (VCS e))
  else if HasPrefix (Repo e) github_prefix then
    Ok (mkPathConfig (TrimSuffix p "/") (Repo e) d "git")
  else Err (ErrCannotInferVCS p (Repo e)).

Fixpoint new_loop (entries : list (string * ConfigPath))
    (acc : list pathConfig) : result (list pathConfig) :=
  match entries with
  | [] => Ok acc
  | (p, e) :: rest =>
      match new_entry p e with
      | Err err => Err err
      | Ok pc => new_loop rest (acc ++ [pc])%list
      end
  end.

Definition New (config : Config) : result handler :=
  let cacheAge :=
    match CacheAge config with
    | None => Ok 86400%Z
    | Some a => if (a <? 0)%Z then Err ErrNegativeCacheAge else Ok a
    end in
  match cacheAge with
  | Err err => Err err
  | Ok cacheAge =>
      match new_loop (Paths config) [] with
      | Err err => Err err
      | Ok ps => Ok (mkHandler (Host config) (max_age_Z cacheAge) (sort_by path ps))
      end
  end.

Definition host (h : handler) (r : request) : string :=
  if String.eqb (hostName h) "" then ReqHost r else hostName h.

Definition ServeHTTP (h : handler) (r : request) : response :=
  let current :=
    if HasPrefix (URLPath r) "/" then URLPath r else "/" ++ URLPath r in
  match find path (paths h) current with
  | (None, _) =>
      if String.eqb current "/"
      then RespIndex (host h r) (map (fun pc => host h r ++ path pc) (paths h))
      else RespNotFound
  | (Some pc, subpath) =>
      RespVanity (Some (cacheControl h)) (host h r ++ path pc) subpath
                 (repo pc) (display pc) (vcs pc)
  end.

End Handler003.

(** ** The redirecting variant (part_001) *)

Module Handler001.

Record PathConfig := mkPathConfig {
  Path : string;
  CacheAge : option N;          (* *uint64 *)
  RedirPaths : list string;
  Repo : string;
  Redir : string;
  Display : string;
  VCS : string;
  cacheControl : string
}.

(** [Config]; its fields are prefixed with [cfg_] to keep them apart
    from the fields of [PathConfig] with the same Go names. *)
Record Config := mkConfig {
  cfg_Host : string;
  cfg_CacheAge : option N;                  (* *uint64 *)
  cfg_Paths : list (string * PathConfig);   (* map[string]*PathConfig *)
  cfg_RedirPaths : list string
}.

Record Handler := mkHandler {
  config : Config;
  PathConfigs : list PathConfig
}.

Definition set_Path (e : PathConfig) (v : string) : PathConfig :=
  mkPathConfig v (CacheAge e) (RedirPaths e) (Repo e) (Redir e) (Display e) (VCS e) (cacheControl e).
Definition set_RedirPaths (e : PathConfig) (v : list string) : PathConfig :=
  mkPathConfig (Path e) (CacheAge e) v (Repo e) (Redir e) (Display e) (VCS e) (cacheControl e).
Definition set_cacheControl (e : PathConfig) (v : string) : PathConfig :=
  mkPathConfig (Path e) (CacheAge e) (RedirPaths e) (Repo e) (Redir e) (Display e) (VCS e) v.
Definition set_Display (e : PathConfig) (v : string) : PathConfig :=
  mkPathConfig (Path e) (CacheAge e) (RedirPaths e) (Repo e) (Redir e) v (VCS e) (cacheControl e).
Definition set_VCS (e : PathConfig) (v : string) : PathConfig :=
  mkPathConfig (Path e) (CacheAge e) (RedirPaths e) (Repo e) (Redir e) (Display e) v (cacheControl e).

(** The body of the loop of [newHandler] for one entry, up to the VCS
    switch. [e] is the pointer stored in [h.Config.Paths[path]], so the
    writes through [h.Config.Paths[path]] and through [e] update one
    record. *)
Definition prepare_entry (cc : string) (globalRedir : list string)
    (p : string) (e : PathConfig) : PathConfig :=
  let e := set_Path e (TrimSuffix p "/") in
  let e := if Nat.ltb (List.length (RedirPaths e)) 1
           then set_RedirPaths e globalRedir else e in
  let e := set_cacheControl e cc in
  let e := match CacheAge e with
           | Some a => set_cacheControl e (max_age_N a)
           | None => e
           end in
  set_Display e (infer_display (Repo e) (Display e)).

(** The whole loop body: the VCS switch on the prepared entry. *)
Definition load_entry (cc : string) (globalRedir : list string)
    (p : string) (e : PathConfig) : result PathConfig :=
  let e := prepare_entry cc globalRedir p e in
  if negb (String.eqb (VCS e) "") then
    if unknown_vcs (VCS e) then Err (ErrUnknownVCS p (VCS e)) else Ok e
  else if HasPrefix (Repo e) github_prefix then Ok (set_VCS e "git")
  else if String.eqb (Repo e) "" && negb (String.eqb (Redir e) "") then
    (* Redirect-only can go anywhere. *)
    Ok e
  else Err (ErrCannotInferVCS p (Repo e)).

Fixpoint load_loop (cc : string) (globalRedir : list string)
    (entries : list (string * PathConfig))
    : result (list (string * PathConfig)) :=
  match entries with
  | [] => Ok []
  | (p, e) :: rest =>
      match load_entry cc globalRedir p e with
      | Err err => Err err
      | Ok e' =>
          match load_loop cc globalRedir rest with
          | Err err => Err err
          | Ok rest' => Ok ((p, e') :: rest')
          end
      end
  end.

(** [newHandler] after [yaml.Unmarshal] has produced [c]. On success the
    handler's [Config.Paths] holds the updated entries (the same
    pointers), and [PathConfigs] lists them sorted by [Path]. *)
Definition newHandler (c : Config) : result Handler :=
  let cc := match cfg_CacheAge c with
            | None => "public, max-age=86400"
            | Some a => max_age_N a
            end in
  match load_loop cc (cfg_RedirPaths c) (cfg_Paths c) with
  | Err err => Err err
  | Ok entries =>
      Ok (mkHandler (mkConfig (cfg_Host c) (cfg_CacheAge c) entries (cfg_RedirPaths c))
                    (sort_by Path (map snd entries)))
  end.

Definition Hostname (h : Handler) (r : request) : string :=
  if String.eqb (cfg_Host (config h)) "" then ReqHost r else cfg_Host (config h).

(** [StringInSlices] *)
Fixpoint StringInSlices (str : string) (slice : list string) : bool :=
  match slice with
  | [] => false
  | s :: rest => if Contains str s then true else StringInSlices str rest
  end.

(** The part of [ServeHTTP] after a mount [pc] was found for [current]
    with [subpath]; [host] is [h.Hostname(r)]. *)
Definition dispatch (current host : string) (pc : PathConfig) (subpath : string)
    : response :=
  if negb (String.eqb (Redir pc) "") && StringInSlices subpath (RedirPaths pc) then
    RespRedirect (Redir pc ++ TrimPrefix current (Path pc)) 302
  else if String.eqb (Repo pc) "" then RespNotFound
  else RespVanity (Some (cacheControl pc)) (host ++ Path pc) subpath
                  (Repo pc) (Display pc) (VCS pc).

Definition ServeHTTP (h : Handler) (r : request) : response :=
  let current := URLPath r in
  match find Path (PathConfigs h) current with
  | (None, _) =>
      if String.eqb current "/" then
        RespIndex (cfg_Host (config h))
          (map (fun '(_, e) => Path e)
               (filter (fun '(_, e) => negb (String.eqb (Repo e) ""))
                       (sort_by fst (cfg_Paths (config h)))))
      else RespNotFound
  | (Some pc, subpath) => dispatch current (Hostname h r) pc subpath
  end.

End Handler001.

(** ** handler.go: the static mounts and the handler *)

Module Main.

(** [defaultHost] of the non-App-Engine build (part_005): [r.Host] *)
Definition defaultHost (r : request) : string := ReqHost r.

Record handler := mkHandler {
  host : string;
  paths : list pathConfig;                (* pathConfigSet *)
  pathRules : Rules.pathConfigRuleSet
}.

(** The anonymous [parsed] struct [yaml.Unmarshal] fills in [newHandler];
    the maps are listed in iteration order. *)
Record parsed := mkParsed {
  parsed_Host : string;
  parsed_Paths : list (string * ConfigPath);       (* parsedPaths *)
  parsed_PathRules : list (string * ConfigPath)    (* parsedPathRules *)
}.

(** [parsePaths]: its loop body is the one of [New] (part_003),
    [Handler003.new_entry], appended in iteration order, then sorted. *)
Definition parsePaths (pathTable : list (string * ConfigPath))
    : result (list pathConfig) :=
  match Handler003.new_loop pathTable [] with
  | Err err => Err err
  | Ok paths => Ok (sort_by path paths)
  end.

(** [pathConfigSet.find] of handler.go: the exact match at the index
    [sort.Search] returns, else the mount just before it followed by a
    separator. *)
Definition find (pset : list pathConfig) (p : string) : option pathConfig * string :=
  let i := Search (List.length pset) (fun k =>
             match nth_error pset k with
             | Some pc => str_geb (path pc) p
             | None => false
             end) in
  let exact :=
    match nth_error pset i with
    | Some pc => if String.eqb (path pc) p then Some pc else None
    | None => None
    end in
  match exact with
  | Some pc => (Some pc, "")
  | None =>
      match i with
      | S i' =>
          match nth_error pset i' with
          | Some pc =>
              if HasPrefix p (path pc ++ "/")
              then (Some pc, str_drop (len (path pc) + 1) p)
              else (None, "")
          | None => (None, "")
          end
      | O => (None, "")
      end
  end.

(** [newHandler] after [yaml.Unmarshal] produced [c]. *)
Definition newHandler (c : parsed) : result handler :=
  match parsePaths (parsed_Paths c) with
  | Err err => Err err
  | Ok paths =>
      match Rules.parsePathRules (parsed_PathRules c) with
      | Err err => Err err
      | Ok rules => Ok (mkHandler (parsed_Host c) paths rules)
      end
  end.

(** [handler.Host] *)
Definition Host (h : handler) (r : request) : string :=
  if String.eqb (host h) "" then defaultHost r else host h.

(** [ServeHTTP], with [serveIndex] inlined (its [GenericRules] list is
    always empty, so the index lists the static mounts only). *)
Definition ServeHTTP (h : handler) (r : request) : response :=
  let current := URLPath r in
  let '(pc, subpath) :=
    match find (paths h) current with
    | (Some pc, s) => (Some pc, s)
    | (None, _) =>
        match Rules.find (pathRules h) current with
        | Some (pc, s) => (Some pc, s)
        | None => (None, "")
        end
    end in
  match pc with
  | None =>
      if String.eqb current "/"
      then RespIndex (Host h r) (map (fun pc => Host h r ++ path pc) (paths h))
      else RespNotFound
  | Some pc =>
      RespVanity None (Host h r ++ path pc) subpath (repo pc) (display pc) (vcs pc)
  end.

End Main.

(** ** Predicates and fixtures used in the statements *)

Module Predicates.
Import Rules.

(** The property the load-time checks establish on the rule map: keys
    are distinct and no literal prefix is a prefix of another one. *)
Definition unambiguous (rs : pathConfigRuleSet) : Prop :=
  NoDup (map fst rs) /\
  forall p q, In p (map fst rs) -> In q (map fst rs) -> p <> q ->
              HasPrefix q p = false.

(** The literal prefix of a rule key ([""] when the key is malformed). *)
Definition key_prefix (k : string) : string :=
  match findStructure (TrimSuffix k "/") with
  | Ok (p, _, _) => p
  | Err _ => ""
  end.

(** The reasons [parsePathRules] rejects a single rule [k] with entry
    [e]: the key (less one trailing "/") has no well-formed single
    placeholder (none, unterminated, empty, or a brace after it); text
    follows the key's placeholder; the repository template (less one
    trailing "/") has no well-formed single placeholder; the two
    placeholders differ; the VCS is unknown or cannot be inferred. *)
Definition rule_error (k : string) (e : ConfigPath) : Prop :=
  (exists err, findStructure (TrimSuffix k "/") = Err err)
  \/ (exists p ph suf, findStructure (TrimSuffix k "/") = Ok (p, ph, suf)
                       /\ suf <> "")
  \/ (exists err, findStructure (TrimSuffix (Repo e) "/") = Err err)
  \/ (exists p ph suf rp rph rsuf,
        findStructure (TrimSuffix k "/") = Ok (p, ph, suf)
        /\ findStructure (TrimSuffix (Repo e) "/") = Ok (rp, rph, rsuf)
        /\ ph <> rph)
  \/ (VCS e <> "" /\ ~ In (VCS e) ["bzr"; "git"; "hg"; "svn"])
  \/ (VCS e = "" /\ HasPrefix (Repo e) github_prefix = false).

(** Two distinct rules (two positions of the map's listing) whose
    literal prefixes are equal or one a prefix of the other. *)
Definition prefixes_overlap (l : list (string * ConfigPath)) : Prop :=
  exists i j k1 e1 k2 e2, i <> j
    /\ nth_error l i = Some (k1, e1) /\ nth_error l j = Some (k2, e2)
    /\ HasPrefix (key_prefix k2) (key_prefix k1) = true.

(** no element of [ps] is a prefix of an element at another position *)
Definition pos_ok (ps : list string) : Prop :=
  forall i j a b, i <> j -> nth_error ps i = Some a -> nth_error ps j = Some b ->
                  HasPrefix b a = false.


(** Why [newHandler] (part_001) rejects an entry [e]: a supplied VCS
    outside {bzr, git, hg, svn}, or an empty VCS with a repository that
    is not on GitHub and an entry that is not redirect-only. *)
Definition vcs_rejected (e : Handler001.PathConfig) : Prop :=
  (Handler001.VCS e <> "" /\ ~ In (Handler001.VCS e) ["bzr"; "git"; "hg"; "svn"])
  \/ (Handler001.VCS e = "" /\ HasPrefix (Handler001.Repo e) github_prefix = false
      /\ ~ (Handler001.Repo e = "" /\ Handler001.Redir e <> "")).
(** the order [sort.Sort] establishes on a set sorted by [key]:
    nondecreasing keys *)
Definition le_key {A} (key : A -> string) (x y : A) : Prop :=
  str_ltb (key y) (key x) = false.

(** the mount [New] and [parsePaths] build for an accepted entry *)
Definition loaded_mount (k : string) (e : ConfigPath) : pathConfig :=
  mkPathConfig (TrimSuffix k "/") (Repo e) (infer_display (Repo e) (Display e))
               (if String.eqb (VCS e) "" then "git" else VCS e).

(** why [New] and [parsePaths] reject an entry: a VCS outside
    {bzr, git, hg, svn}, or no VCS and a repository not on GitHub *)
Definition entry_rejected (e : ConfigPath) : Prop :=
  (VCS e <> "" /\ ~ In (VCS e) ["bzr"; "git"; "hg"; "svn"])
  \/ (VCS e = "" /\ HasPrefix (Repo e) github_prefix = false).
End Predicates.

(** Inputs of the package's own tests. *)
Module Fixtures.
Definition pc_at (p : string) : pathConfig := mkPathConfig p "" "" "".
Definition find_paths (ps : list string) (q : string) : option string * string :=
  let '(pc, sub) := find path (sort_by path (map pc_at ps)) q in
  (option_map path pc, sub).

Definition portmidi : ConfigPath := mkConfigPath "https://github.com/rakyll/portmidi" "" "".
Definition req (p : string) : request := mkRequest p "localhost".

Definition gh_rule : ConfigPath := mkConfigPath "https://github.com/{user}" "" "".

(** Two non-overlapping wildcard rules, and the rule map [parsePathRules]
    builds from them. *)
Definition gh_gl_config : list (string * ConfigPath) :=
  [("/gh/{user}", gh_rule);
   ("/gl/{user}/", mkConfigPath "https://gitlab.com/{user}" "" "git")].
Definition gh_gl_rules : Rules.pathConfigRuleSet :=
  [("/gh/", Rules.mkPathConfigRule "{user}" "https://github.com/{user}" "" "git");
   ("/gl/", Rules.mkPathConfigRule "{user}" "https://gitlab.com/{user}" "" "git")].

(** A static configuration with a mount and a sibling whose name extends
    it by a character that sorts before "/". *)
Definition yaml_config : Handler003.Config :=
  Handler003.mkConfig "example.com" None
    [("/yaml", mkConfigPath "https://github.com/go-yaml/yaml" "" "");
     ("/yaml.v2", mkConfigPath "https://github.com/go-yaml/yaml" "" "")].

(** part_001 configurations. *)
Definition entry001 (repo redir vcs : string) (age : option N)
    (redirPaths : list string) : Handler001.PathConfig :=
  Handler001.mkPathConfig "" age redirPaths repo redir "" vcs "".

(** A content mount with a zero cache override, a redirect-only mount
    with a marker, and a mount with neither repository nor redirect. *)
Definition config001 : Handler001.Config :=
  Handler001.mkConfig "example.com" (Some 600%N)
    [("/portmidi", entry001 "https://github.com/rakyll/portmidi" "" "" (Some 0%N) []);
     ("/dl", entry001 "" "https://dl.example.com" "" None ["releases"]);
     ("/empty", entry001 "" "" "git" None [])]
    [].

Definition handler001 : Handler001.Handler :=
  Eval vm_compute in
    match Handler001.newHandler config001 with
    | Ok h => h
    | Err _ => Handler001.mkHandler config001 []
    end.

(** The loaded "/dl" mount of [config001]. *)
Definition dl_mount : Handler001.PathConfig :=
  Handler001.mkPathConfig "/dl" None ["releases"] "" "https://dl.example.com" "" ""
    "public, max-age=600".

(** The loaded "/empty" mount of [config001]. *)
Definition empty_mount : Handler001.PathConfig :=
  Handler001.mkPathConfig "/empty" None [] "" "" "" "git" "public, max-age=600".
End Fixtures.

(** * Properties *)

(** ** The package's own test cases, replayed on the model *)

Module Tests.
Import Fixtures.

(** TestPathConfigSetFind *)
Example find_cases :
  find_paths ["/portmidi"] "/portmidi" = (Some "/portmidi", "")
  /\ find_paths ["/portmidi"] "/portmidi/" = (Some "/portmidi", "")
  /\ find_paths ["/portmidi"] "/foo" = (None, "")
  /\ find_paths ["/portmidi"] "/zzz" = (None, "")
  /\ find_paths ["/abc"; "/portmidi"; "/xyz"] "/portmidi" = (Some "/portmidi", "")
  /\ find_paths ["/abc"; "/portmidi"; "/xyz"] "/portmidi/foo" = (Some "/portmidi", "foo")
  /\ find_paths ["/example/helloworld"; "/"; "/y"; "/foo"] "/x" = (Some "/", "x")
  /\ find_paths ["/example/helloworld"; "/"; "/y"; "/foo"] "/" = (Some "/", "")
  /\ find_paths ["/example/helloworld"; "/"; "/y"; "/foo"] "/example" = (Some "/", "example")
  /\ find_paths ["/example/helloworld"; "/"; "/y"; "/foo"] "/example/foo" = (Some "/", "example/foo")
  /\ find_paths ["/example/helloworld"; "/"; "/y"; "/foo"] "/y" = (Some "/y", "")
  /\ find_paths ["/example/helloworld"; "/"; "/y"; "/foo"] "/x/y/" = (Some "/", "x/y/")
  /\ find_paths ["/example/helloworld"; "/y"; "/foo"] "/x" = (None, "").
Proof. vm_compute. repeat split. Qed.

(** TestHandler, "display GitHub inference" *)
Example handler_github :
  match Handler003.New (Handler003.mkConfig "example.com" None [("/portmidi", portmidi)]) with
  | Ok h => Handler003.ServeHTTP h (req "/portmidi")
  | Err _ => RespNotFound
  end
  = RespVanity (Some "public, max-age=86400") "example.com/portmidi" ""
      "https://github.com/rakyll/portmidi"
      "https://github.com/rakyll/portmidi https://github.com/rakyll/portmidi/tree/master{/dir} https://github.com/rakyll/portmidi/blob/master{/dir}/{file}#L{line}"
      "git".
Proof. vm_compute. reflexivity. Qed.

(** TestBadConfigs *)
Example bad_configs :
  is_ok (Handler003.New (Handler003.mkConfig "" None
    [("/missingvcs", mkConfigPath "https://bitbucket.org/zombiezen/gopdf" "" "")])) = false
  /\ is_ok (Handler003.New (Handler003.mkConfig "" None
    [("/unknownvcs", mkConfigPath "https://bitbucket.org/zombiezen/gopdf" "" "xyzzy")])) = false
  /\ is_ok (Handler003.New (Handler003.mkConfig "" (Some (-1)%Z) [("/portmidi", portmidi)])) = false.
Proof. vm_compute. repeat split. Qed.

(** TestCacheHeader, "zero config_max_age" *)
Example cache_zero :
  match Handler003.New (Handler003.mkConfig "" (Some 0%Z) [("/portmidi", portmidi)]) with
  | Ok h => Handler003.cacheControl h
  | Err _ => ""
  end = "public, max-age=0".
Proof. vm_compute. reflexivity. Qed.

Example rules_find :
  match Rules.parsePathRules [("/gh/{user}", gh_rule)] with
  | Ok rs => Rules.find rs "/gh/acme/tool"
  | Err _ => None
  end
  = Some (mkPathConfig "/gh/acme" "https://github.com/acme" "" "git", "/tool").
Proof. vm_compute. reflexivity. Qed.

End Tests.

(** ** Facts about the [strings] model *)

Module StringFacts.

Lemma HasPrefix_refl (s : string) : HasPrefix s s = true.
Proof.
  induction s as [|c s IH]; simpl; [reflexivity|].
  rewrite Ascii.eqb_refl, IH. reflexivity.
Qed.

(** two prefixes of one string are prefixes of one another *)
Lemma HasPrefix_comparable (s a b : string) :
  HasPrefix s a = true -> HasPrefix s b = true ->
  HasPrefix a b = true \/ HasPrefix b a = true.
Proof.
  revert a b.
  induction s as [|c s IH]; intros a b Ha Hb.
  - destruct a; destruct b; simpl in *; auto; discriminate.
  - destruct a as [|ca a]; [destruct b; simpl; auto|].
    destruct b as [|cb b]; [simpl; auto|].
    simpl in Ha, Hb |- *.
    apply andb_prop in Ha as [Ea Ha]. apply andb_prop in Hb as [Eb Hb].
    apply Ascii.eqb_eq in Ea. apply Ascii.eqb_eq in Eb. subst.
    rewrite Ascii.eqb_refl. simpl. apply IH; assumption.
Qed.

Lemma str_drop_len (s : string) : str_drop (len s) s = "".
Proof. induction s; simpl; auto. Qed.

Lemma str_take_len (s : string) : str_take (len s) s = s.
Proof. induction s; simpl; f_equal; auto. Qed.

Lemma TrimPrefix_self (s : string) : TrimPrefix s s = "".
Proof. unfold TrimPrefix. rewrite HasPrefix_refl. apply str_drop_len. Qed.

Lemma TrimSuffix_empty (s : string) : TrimSuffix s "" = s.
Proof.
  unfold TrimSuffix, HasSuffix. simpl len.
  rewrite Nat.sub_0_r, str_drop_len. simpl.
  apply str_take_len.
Qed.

Lemma unknown_vcs_spec (v : string) :
  unknown_vcs v = true <-> ~ In v ["bzr"; "git"; "hg"; "svn"].
Proof.
  unfold unknown_vcs.
  destruct (String.eqb_spec v "bzr"); destruct (String.eqb_spec v "git");
  destruct (String.eqb_spec v "hg"); destruct (String.eqb_spec v "svn");
  simpl; split; intros H; try discriminate; try reflexivity;
  try (exfalso; apply H; subst; simpl; tauto);
  intros [|[|[|[|[]]]]]; congruence.
Qed.

End StringFacts.

(** ** Facts about the wildcard rules *)

Module RulesFacts.
Import Rules StringFacts Predicates.

Lemma unambiguous_cons x rs : unambiguous (x :: rs) -> unambiguous rs.
Proof.
  intros [Hnd Hpre]. simpl in Hnd. inversion Hnd; subst.
  split; [assumption|]. intros p q Hp Hq. apply Hpre; simpl; auto.
Qed.

Lemma unambiguous_perm rs rs' :
  Permutation rs rs' -> unambiguous rs -> unambiguous rs'.
Proof.
  intros HP [Hnd Hpre]. split.
  - eapply Permutation_NoDup; [apply Permutation_map; exact HP | exact Hnd].
  - intros p q Hp Hq. apply Hpre;
      eapply Permutation_in; [apply Permutation_map, Permutation_sym, HP| |
                              apply Permutation_map, Permutation_sym, HP|];
      assumption.
Qed.

Lemma lookup_None k (paths : pathConfigRuleSet) :
  lookup k paths = None <-> ~ In k (map fst paths).
Proof.
  induction paths as [|[k' v] rest IH]; simpl; [tauto|].
  destruct (String.eqb_spec k k'); subst.
  - split; [discriminate|]. intros H. exfalso. apply H. auto.
  - rewrite IH. intuition.
Qed.

Lemma cover_inner_ok p vs :
  is_ok (cover_inner p vs) = true <->
  forall q, In q (map fst vs) -> q <> p -> HasPrefix q p = false.
Proof.
  induction vs as [|[v r] rest IH]; simpl.
  - split; [tauto|reflexivity].
  - destruct (String.eqb_spec v p) as [->|Hne].
    + rewrite IH. split.
      * intros H q [<-|Hq] Hqp; [congruence|]. apply H; assumption.
      * intros H q Hq Hqp. apply H; auto.
    + destruct (HasPrefix v p) eqn:E.
      * simpl. split; [discriminate|]. intros H.
        rewrite (H v (or_introl eq_refl) Hne) in E. discriminate.
      * rewrite IH. split.
        -- intros H q [<-|Hq] Hqp; auto.
        -- intros H q Hq Hqp. apply H; auto.
Qed.

Lemma cover_outer_ok ps all :
  is_ok (cover_outer ps all) = true <->
  forall p, In p (map fst ps) -> is_ok (cover_inner p all) = true.
Proof.
  induction ps as [|[p r] rest IH]; simpl.
  - split; [tauto|reflexivity].
  - destruct (cover_inner p all) eqn:E; simpl.
    + rewrite IH. split.
      * intros H q [<-|Hq]; [rewrite E; reflexivity|]. auto.
      * intros H q Hq. auto.
    + split; [discriminate|]. intros H.
      specialize (H p (or_introl eq_refl)). rewrite E in H. discriminate.
Qed.

Lemma cover_ok_iff rs :
  is_ok (cover_outer rs rs) = true <->
  forall p q, In p (map fst rs) -> In q (map fst rs) -> p <> q ->
              HasPrefix q p = false.
Proof.
  rewrite cover_outer_ok. split.
  - intros H p q Hp Hq Hpq. apply (proj1 (cover_inner_ok p rs) (H p Hp)); auto.
  - intros H p Hp. apply cover_inner_ok. intros q Hq Hqp. apply H; auto.
Qed.

Lemma parse_loop_keys l acc rs :
  parse_loop l acc = Ok rs -> NoDup (map fst acc) -> NoDup (map fst rs).
Proof.
  revert acc. induction l as [|[rule e] rest IH]; intros acc H Hnd; simpl in H.
  - injection H as <-. assumption.
  - destruct (parse_rule rule e) as [[prefix pc]|err]; [|discriminate].
    destruct (lookup prefix acc) eqn:E; [discriminate|].
    apply (IH _ H). rewrite map_app. simpl.
    apply lookup_None in E.
    apply NoDup_app; [assumption|repeat constructor; simpl; tauto|].
    intros x Hx [<-|[]]. contradiction.
Qed.

Lemma parsePathRules_unambiguous l rs :
  parsePathRules l = Ok rs -> unambiguous rs.
Proof.
  unfold parsePathRules. intros H.
  destruct (parse_loop l []) as [paths|err] eqn:E; [|discriminate].
  destruct (cover_outer paths paths) eqn:C; [|discriminate].
  injection H as <-. split.
  - apply (parse_loop_keys _ _ _ E). constructor.
  - apply cover_ok_iff. rewrite C. reflexivity.
Qed.

Lemma find_None rs path :
  (forall p r, In (p, r) rs -> HasPrefix path p = false) -> find rs path = None.
Proof.
  induction rs as [|[p r] rest IH]; intros H; simpl; [reflexivity|].
  rewrite (H p r (or_introl eq_refl)). simpl.
  apply IH. intros p' r' Hin. apply (H p' r'). right. assumption.
Qed.

(** In an unambiguous rule set, [find] returns the one matching rule. *)
Lemma find_unique rs p r path :
  unambiguous rs -> In (p, r) rs -> HasPrefix path p = true ->
  find rs path = Some (match_rule p r path).
Proof.
  induction rs as [|[p0 r0] rest IH]; intros Hu Hin Hp; [destruct Hin|].
  simpl. destruct (HasPrefix path p0) eqn:E0; simpl.
  - destruct Hin as [Heq|Hin]; [injection Heq as -> ->; reflexivity|].
    destruct Hu as [Hnd Hpre].
    assert (Hpin : In p (map fst rest)) by (apply (in_map fst) in Hin; exact Hin).
    destruct (String.eqb_spec p0 p) as [->|Hne].
    + simpl in Hnd. inversion Hnd. contradiction.
    + exfalso.
      destruct (HasPrefix_comparable _ _ _ E0 Hp) as [H|H].
      * rewrite (Hpre p p0) in H; simpl; auto; discriminate.
      * rewrite (Hpre p0 p) in H; simpl; auto; discriminate.
  - destruct Hin as [Heq|Hin]; [injection Heq as -> ->; congruence|].
    apply IH; auto. eapply unambiguous_cons; eassumption.
Qed.

Lemma find_perm rs rs' path :
  unambiguous rs -> Permutation rs rs' -> find rs' path = find rs path.
Proof.
  intros Hu HP.
  assert (Hu' : unambiguous rs') by (eapply unambiguous_perm; eassumption).
  destruct (existsb (fun '(p, _) => HasPrefix path p) rs) eqn:E.
  - apply existsb_exists in E as [[p r] [Hin Hp]].
    rewrite (find_unique rs p r path), (find_unique rs' p r path); auto.
    eapply Permutation_in; eassumption.
  - rewrite !find_None; auto.
    + intros p r Hin. destruct (HasPrefix path p) eqn:Hp; [|reflexivity].
      rewrite <- E. symmetry. apply existsb_exists. exists (p, r). auto.
    + intros p r Hin. destruct (HasPrefix path p) eqn:Hp; [|reflexivity].
      rewrite <- E. symmetry. apply existsb_exists. exists (p, r). split; auto.
      eapply Permutation_in; [apply Permutation_sym|]; eassumption.
Qed.

Lemma matching_at_most_one rs path :
  unambiguous rs ->
  List.length (filter (fun '(p, _) => HasPrefix path p) rs) <= 1.
Proof.
  induction rs as [|[p0 r0] rest IH]; intros Hu; simpl; [lia|].
  destruct (HasPrefix path p0) eqn:E0.
  - simpl. destruct (filter (fun '(p, _) => HasPrefix path p) rest) as [|[q r] t] eqn:F;
      simpl; [lia|].
    exfalso.
    assert (Hq : In (q, r) (filter (fun '(p, _) => HasPrefix path p) rest))
      by (rewrite F; left; reflexivity).
    apply filter_In in Hq as [Hin Hq].
    destruct Hu as [Hnd Hpre].
    assert (Hqin : In q (map fst rest)) by (apply (in_map fst) in Hin; exact Hin).
    destruct (String.eqb_spec p0 q) as [->|Hne].
    + simpl in Hnd. inversion Hnd. contradiction.
    + destruct (HasPrefix_comparable _ _ _ E0 Hq) as [H|H].
      * rewrite (Hpre q p0) in H; simpl; auto; discriminate.
      * rewrite (Hpre p0 q) in H; simpl; auto; discriminate.
  - apply IH. eapply unambiguous_cons; eassumption.
Qed.

End RulesFacts.

(** ** Load-time validation of the wildcard rules *)

Module RulesLoad.
Import Rules StringFacts Predicates RulesFacts.

Lemma parse_rule_ok k e p pc :
  parse_rule k e = Ok (p, pc) -> ~ rule_error k e /\ p = key_prefix k.
Proof.
  unfold parse_rule, rule_error, key_prefix.
  destruct (findStructure (TrimSuffix k "/")) as [[[p0 ph] suf]|err] eqn:F;
    [|discriminate].
  destruct (String.eqb_spec suf "") as [->|]; simpl; [|discriminate].
  destruct (findStructure (TrimSuffix (Repo e) "/")) as [[[rp rph] rsuf]|err] eqn:G;
    [|discriminate].
  destruct (String.eqb_spec ph rph) as [<-|]; simpl; [|discriminate].
  intros H. split.
  - destruct (String.eqb_spec (VCS e) "") as [Hv|Hv]; simpl in H.
    + destruct (HasPrefix (Repo e) github_prefix) eqn:Hg; [|discriminate].
      intros [[x Hx]|[[a [b [c [Hx Hc]]]]|[[x Hx]|[[a [b [c [d [f [g [H1 [H2 H3]]]]]]]]|[[Hx1 Hx2]|[Hx1 Hx2]]]]]];
        congruence.
    + destruct (unknown_vcs (VCS e)) eqn:Hu; [discriminate|].
      intros [[x Hx]|[[a [b [c [Hx Hc]]]]|[[x Hx]|[[a [b [c [d [f [g [H1 [H2 H3]]]]]]]]|[[Hx1 Hx2]|[Hx1 Hx2]]]]]];
        try congruence.
      apply unknown_vcs_spec in Hx2. congruence.
  - destruct (String.eqb_spec (VCS e) "") as [Hv|Hv]; simpl in H.
    + destruct (HasPrefix (Repo e) github_prefix); [|discriminate].
      injection H as <- _. reflexivity.
    + destruct (unknown_vcs (VCS e)); [discriminate|].
      injection H as <- _. reflexivity.
Qed.

Lemma parse_rule_err k e err : parse_rule k e = Err err -> rule_error k e.
Proof.
  unfold parse_rule, rule_error.
  destruct (findStructure (TrimSuffix k "/")) as [[[p0 ph] suf]|err0] eqn:F;
    [|intros _; left; exists err0; reflexivity].
  destruct (String.eqb_spec suf "") as [->|Hs]; simpl;
    [|intros _; right; left; exists p0, ph, suf; auto].
  destruct (findStructure (TrimSuffix (Repo e) "/")) as [[[rp rph] rsuf]|err1] eqn:G;
    [|intros _; right; right; left; exists err1; reflexivity].
  destruct (String.eqb_spec ph rph) as [<-|Hph]; simpl;
    [|intros _; right; right; right; left; exists p0, ph, "", rp, rph, rsuf; auto].
  intros H. do 4 right.
  destruct (String.eqb_spec (VCS e) "") as [Hv|Hv]; simpl in H.
  - destruct (HasPrefix (Repo e) github_prefix) eqn:Hg; [discriminate|].
    right. auto.
  - destruct (unknown_vcs (VCS e)) eqn:Hu; [|discriminate].
    left. split; [assumption|]. apply unknown_vcs_spec. assumption.
Qed.

Definition kp (ke : string * ConfigPath) : string := key_prefix (fst ke).

Lemma parse_loop_spec l acc :
  NoDup (map fst acc) ->
  match parse_loop l acc with
  | Ok rs => (forall k e, In (k, e) l -> ~ rule_error k e)
             /\ map fst rs = (map fst acc ++ map kp l)%list
  | Err _ => (exists k e, In (k, e) l /\ rule_error k e)
             \/ ~ NoDup (map fst acc ++ map kp l)%list
  end.
Proof.
  revert acc. induction l as [|[k e] rest IH]; intros acc Hnd; simpl.
  - split; [tauto|]. rewrite app_nil_r. reflexivity.
  - destruct (parse_rule k e) as [[p pc]|err] eqn:Hr.
    + destruct (parse_rule_ok _ _ _ _ Hr) as [Hne Hp].
      destruct (lookup p acc) eqn:Hl.
      * right. intros Hnd'. apply NoDup_remove_2 in Hnd'.
        apply Hnd'. apply in_or_app. left.
        assert (Hkp : kp (k, e) = p) by (unfold kp; simpl; symmetry; exact Hp).
        rewrite Hkp.
        destruct (lookup_None p acc) as [_ H].
        destruct (in_dec string_dec p (map fst acc)) as [Hin|Hin]; [exact Hin|].
        rewrite (H Hin) in Hl. discriminate.
      * assert (Hnd2 : NoDup (map fst (acc ++ [(p, pc)])%list)).
        { rewrite map_app. simpl. apply lookup_None in Hl.
          apply NoDup_app; [assumption|repeat constructor; simpl; tauto|].
          intros x Hx [<-|[]]. contradiction. }
        specialize (IH _ Hnd2).
        rewrite map_app in IH. simpl in IH. rewrite <- app_assoc in IH.
        simpl in IH.
        assert (Hkp : kp (k, e) = p) by (unfold kp; simpl; symmetry; exact Hp).
        rewrite Hkp.
        destruct (parse_loop rest (acc ++ [(p, pc)])%list).
        -- destruct IH as [IH1 IH2]. split; [|assumption].
           intros k' e' [Heq|Hin]; [injection Heq as <- <-; assumption|].
           apply IH1; assumption.
        -- destruct IH as [[k' [e' [Hin Herr]]]|IH]; [left|right; assumption].
           exists k', e'. split; [right|]; assumption.
    + left. exists k, e. split; [left; reflexivity|].
      eapply parse_rule_err; eassumption.
Qed.

Lemma pos_ok_iff ps :
  pos_ok ps <->
  NoDup ps /\ (forall a b, In a ps -> In b ps -> a <> b -> HasPrefix b a = false).
Proof.
  unfold pos_ok. split.
  - intros H. split.
    + apply NoDup_nth_error. intros i j Hi Hij.
      destruct (Nat.eq_dec i j) as [|Hne]; [assumption|exfalso].
      destruct (nth_error ps i) as [a|] eqn:Ea;
        [|apply nth_error_None in Ea; lia].
      specialize (H i j a a Hne Ea (eq_sym Hij)).
      rewrite HasPrefix_refl in H. discriminate.
    + intros a b Ha Hb Hab.
      apply In_nth_error in Ha as [i Hi]. apply In_nth_error in Hb as [j Hj].
      apply (H i j); auto. intros ->. congruence.
  - intros [Hnd H] i j a b Hij Ha Hb.
    destruct (String.eqb_spec a b) as [->|Hab].
    + exfalso. apply Hij. eapply NoDup_nth_error; [exact Hnd| |congruence].
      apply nth_error_Some. congruence.
    + apply H; auto; eapply nth_error_In; eassumption.
Qed.

Lemma overlap_iff l : prefixes_overlap l <-> ~ pos_ok (map kp l).
Proof.
  unfold prefixes_overlap, pos_ok. split.
  - intros [i [j [k1 [e1 [k2 [e2 [Hij [H1 [H2 H3]]]]]]]]] H.
    rewrite (H i j (key_prefix k1) (key_prefix k2)) in H3; auto; [discriminate| |].
    + rewrite nth_error_map, H1. reflexivity.
    + rewrite nth_error_map, H2. reflexivity.
  - intros H. apply Classical_Prop.NNPP. intros Hno. apply H.
    intros i j a b Hij Ha Hb.
    rewrite nth_error_map in Ha, Hb.
    destruct (nth_error l i) as [[k1 e1]|] eqn:E1; [|discriminate].
    destruct (nth_error l j) as [[k2 e2]|] eqn:E2; [|discriminate].
    injection Ha as <-. injection Hb as <-. unfold kp; simpl.
    destruct (HasPrefix (key_prefix k2) (key_prefix k1)) eqn:E; [|reflexivity].
    exfalso. apply Hno. exists i, j, k1, e1, k2, e2. auto.
Qed.

End RulesLoad.

(** ** The claims *)

Import Predicates Fixtures.

(** C1 (code defect). The lookup's slow path keeps any mount whose path is
    a plain string prefix of the request, with no separator after it, and
    does not remove the separator from the subpath it returns: with the
    single mount "/abc", "/abcd" resolves to "/abc" with subpath "d"; with
    mounts "/abc" and "/abc/def", "/abc/foo" resolves to "/abc" with
    subpath "/foo". The handler serves "/abcd" as the "/abc" package. *)
Theorem find_slow_path_ignores_separator :
  find_paths ["/abc"] "/abcd" = (Some "/abc", "d")
  /\ find_paths ["/abc"; "/abc/def"] "/abc/foo" = (Some "/abc", "/foo")
  /\ match Handler003.New (Handler003.mkConfig "example.com" None
             [("/abc", mkConfigPath "https://github.com/x/abc" "" "")]) with
     | Ok h => Handler003.ServeHTTP h (req "/abcd")
     | Err _ => RespNotFound
     end
     = RespVanity (Some "public, max-age=86400") "example.com/abc" "d"
         "https://github.com/x/abc"
         (github_display "https://github.com/x/abc") "git".
Proof. vm_compute. repeat split. Qed.

(** C2 (code defect). With the mounts "/yaml" and "/yaml.v2" (sorted,
    loaded by [New]), "/yaml" resolves to "/yaml" with the empty subpath
    but "/yaml/" resolves to "/yaml" with subpath "/": the trailing
    separator changes the result. *)
Theorem find_trailing_separator_changes_subpath :
  find_paths ["/yaml"; "/yaml.v2"] "/yaml" = (Some "/yaml", "")
  /\ find_paths ["/yaml"; "/yaml.v2"] "/yaml/" = (Some "/yaml", "/")
  /\ match Handler003.New yaml_config with
     | Ok h => (Handler003.ServeHTTP h (req "/yaml"), Handler003.ServeHTTP h (req "/yaml/"))
     | Err _ => (RespNotFound, RespNotFound)
     end
     = (RespVanity (Some "public, max-age=86400") "example.com/yaml" ""
          "https://github.com/go-yaml/yaml" (github_display "https://github.com/go-yaml/yaml") "git",
        RespVanity (Some "public, max-age=86400") "example.com/yaml" "/"
          "https://github.com/go-yaml/yaml" (github_display "https://github.com/go-yaml/yaml") "git").
Proof. vm_compute. repeat split. Qed.

(** C3 (code defect). In handler.go a request matched by a wildcard
    rule keeps the separator in front of its subpath, while the static
    lookup drops it. For a handler built by [newHandler] with a rule of
    literal prefix "/gh/" and placeholder "{user}" and no static mount for
    "/gh/acme/tool", that request renders the mount "/gh/acme" with the
    subpath "/tool", whereas a static mount "/gh/acme" gets the subpath
    "tool" for the same request. The page template writes the mount path,
    "/" and the subpath, so the wildcard page links to ".../gh/acme//tool". *)
Theorem wildcard_subpath_keeps_separator c h r hst pc :
  Main.newHandler c = Ok h -> In ("/gh/", r) (Main.pathRules h) ->
  Rules.placeholder r = "{user}" ->
  fst (Main.find (Main.paths h) "/gh/acme/tool") = None ->
  path pc = "/gh/acme" ->
  Main.ServeHTTP h (mkRequest "/gh/acme/tool" hst)
  = RespVanity None (Main.Host h (mkRequest "/gh/acme/tool" hst) ++ "/gh/acme") "/tool"
      (Replace (Rules.repoSubst r) "{user}" "acme")
      (Replace (Rules.rule_display r) "{user}" "acme") (Rules.rule_vcs r)
  /\ Main.find [pc] "/gh/acme/tool" = (Some pc, "tool").
Proof.
  intros Hn Hin Hph Hf Hp.
  assert (Hu : Predicates.unambiguous (Main.pathRules h)).
  { unfold Main.newHandler in Hn.
    destruct (Main.parsePaths _); [|discriminate].
    destruct (Rules.parsePathRules _) eqn:R; [|discriminate].
    injection Hn as <-. exact (RulesFacts.parsePathRules_unambiguous _ _ R). }
  split.
  - unfold Main.ServeHTTP.
    change (URLPath (mkRequest "/gh/acme/tool" hst)) with "/gh/acme/tool".
    destruct (Main.find (Main.paths h) "/gh/acme/tool") as [[q|] s];
      [simpl in Hf; discriminate|].
    rewrite (RulesFacts.find_unique _ "/gh/" r); auto.
    unfold Rules.match_rule. rewrite Hph. reflexivity.
  - destruct pc as [pp pr pd pv]. simpl in Hp. subst pp. reflexivity.
Qed.

Lemma wildcard_subpath_keeps_separator_witness :
  let c := Main.mkParsed "example.com" [] gh_gl_config in
  let h := match Main.newHandler c with
           | Ok h => h | Err _ => Main.mkHandler "" [] [] end in
  Main.ServeHTTP h (mkRequest "/gh/acme/tool" "localhost")
  = RespVanity None (Main.Host h (mkRequest "/gh/acme/tool" "localhost") ++ "/gh/acme") "/tool"
      (Replace "https://github.com/{user}" "{user}" "acme")
      (Replace "" "{user}" "acme") "git"
  /\ Main.find [mkPathConfig "/gh/acme" "https://github.com/acme" "" "git"] "/gh/acme/tool"
     = (Some (mkPathConfig "/gh/acme" "https://github.com/acme" "" "git"), "tool").
Proof.
  intros c h.
  apply (wildcard_subpath_keeps_separator c h
           (Rules.mkPathConfigRule "{user}" "https://github.com/{user}" "" "git")).
  - vm_compute. reflexivity.
  - vm_compute. left. reflexivity.
  - reflexivity.
  - vm_compute. reflexivity.
  - reflexivity.
Defined.

(** C5 (counterexample). The rule "/gh/{user}" has one well-formed
    placeholder and no trailing text, its repository template
    "https://github.com/{user}/{user}" uses the same token "{user}", its
    VCS is inferable and it is the only rule; yet loading fails, because
    the repository template holds more than one placeholder. *)
Lemma parsePathRules_rejects_repeated_repo_placeholder :
  Rules.findStructure "/gh/{user}" = Ok ("/gh/", "{user}", "")
  /\ HasPrefix "https://github.com/{user}/{user}" github_prefix = true
  /\ Rules.parsePathRules
       [("/gh/{user}", mkConfigPath "https://github.com/{user}/{user}" "" "")]
     = Err (ErrRepo "/gh/{user}" (ErrMultiplePlaceholders "https://github.com/{user}/{user}")).
Proof. vm_compute. repeat split. Qed.

(** C5 (amended). Loading the wildcard rules fails exactly when some rule
    is rejected ([rule_error]: the key, less one trailing "/", has zero,
    an unterminated, an empty or more than one placeholder, or text after
    it; the repository template, less one trailing "/", has zero, an
    unterminated, an empty or more than one placeholder; the two
    placeholder tokens differ; or the VCS is neither valid nor inferable),
    or when the literal prefixes of two distinct rules are equal or one is
    a prefix of the other. *)
Theorem parsePathRules_error_iff (l : list (string * ConfigPath)) :
  (exists err, Rules.parsePathRules l = Err err) <->
  (exists k e, In (k, e) l /\ rule_error k e) \/ prefixes_overlap l.
Proof.
  unfold Rules.parsePathRules.
  pose proof (RulesLoad.parse_loop_spec l [] (NoDup_nil _)) as S. simpl in S.
  destruct (Rules.parse_loop l []) as [rs|err] eqn:E.
  - destruct S as [Hno Hkeys].
    destruct (Rules.cover_outer rs rs) as [u|err] eqn:C.
    + split; [intros [err H]; discriminate|].
      intros [[k [e [Hin Herr]]]|Hov]; [exfalso; eapply Hno; eauto|].
      exfalso. apply RulesLoad.overlap_iff in Hov. apply Hov.
      apply RulesLoad.pos_ok_iff. split.
      * rewrite <- Hkeys. eapply RulesFacts.parse_loop_keys; [exact E|constructor].
      * rewrite <- Hkeys. apply RulesFacts.cover_ok_iff. rewrite C. reflexivity.
    + split; [intros _; right|intros _; exists err; reflexivity].
      apply RulesLoad.overlap_iff. intros Hp.
      apply RulesLoad.pos_ok_iff in Hp as [_ Hp].
      rewrite <- Hkeys in Hp. apply RulesFacts.cover_ok_iff in Hp.
      rewrite C in Hp. discriminate.
  - split; [intros _|intros _; exists err; reflexivity].
    destruct S as [S|S]; [left; exact S|right].
    apply RulesLoad.overlap_iff. intros Hp.
    apply RulesLoad.pos_ok_iff in Hp as [Hp _]. contradiction.
Qed.

(** C6. In every rule map accepted by [parsePathRules], at most one rule's
    literal prefix is a prefix of a given path, and [find] returns the same
    result for every enumeration order of the map. *)
Theorem wildcard_find_order_independent l rs path :
  Rules.parsePathRules l = Ok rs ->
  List.length (filter (fun '(p, _) => HasPrefix path p) rs) <= 1
  /\ forall rs', Permutation rs rs' -> Rules.find rs' path = Rules.find rs path.
Proof.
  intros H. apply RulesFacts.parsePathRules_unambiguous in H.
  split.
  - apply RulesFacts.matching_at_most_one. assumption.
  - intros rs' HP. apply RulesFacts.find_perm; assumption.
Qed.

Lemma wildcard_find_order_independent_witness :
  Rules.parsePathRules gh_gl_config = Ok gh_gl_rules
  /\ List.length (filter (fun '(p, _) => HasPrefix "/gl/bob/x" p) gh_gl_rules) <= 1
  /\ forall rs', Permutation gh_gl_rules rs' ->
       Rules.find rs' "/gl/bob/x" = Rules.find gh_gl_rules "/gl/bob/x".
Proof.
  split; [vm_compute; reflexivity|].
  apply (wildcard_find_order_independent gh_gl_config). vm_compute. reflexivity.
Defined.

(** C10. In every rule map accepted by [parsePathRules], a request equal
    to a rule's literal prefix matches that rule with the empty dynamic
    segment: the mount's path is the prefix, its repository URL and display
    are the templates with the placeholder replaced by "", and the subpath
    is empty. *)
Theorem wildcard_exact_prefix l rs p r :
  Rules.parsePathRules l = Ok rs -> In (p, r) rs ->
  Rules.find rs p
  = Some (mkPathConfig p (Replace (Rules.repoSubst r) (Rules.placeholder r) "")
            (Replace (Rules.rule_display r) (Rules.placeholder r) "") (Rules.rule_vcs r),
          "").
Proof.
  intros Hp Hin.
  rewrite (RulesFacts.find_unique rs p r p); auto.
  - unfold Rules.match_rule. rewrite StringFacts.TrimPrefix_self.
    cbn [Rules.splitSubpath Index HasPrefix]. simpl.
    rewrite StringFacts.TrimSuffix_empty. reflexivity.
  - eapply RulesFacts.parsePathRules_unambiguous; eassumption.
  - apply StringFacts.HasPrefix_refl.
Qed.

Lemma wildcard_exact_prefix_witness :
  Rules.parsePathRules gh_gl_config = Ok gh_gl_rules
  /\ Rules.find gh_gl_rules "/gh/"
     = Some (mkPathConfig "/gh/" (Replace "https://github.com/{user}" "{user}" "")
               (Replace "" "{user}" "") "git", "").
Proof.
  split; [vm_compute; reflexivity|].
  apply (wildcard_exact_prefix gh_gl_config gh_gl_rules "/gh/"
           (Rules.mkPathConfigRule "{user}" "https://github.com/{user}" "" "git")).
  - vm_compute. reflexivity.
  - simpl. left. reflexivity.
Defined.

(** ** Facts about the redirecting handler (part_001) *)

Module Handler001Facts.
Import Handler001 StringFacts.

Lemma insert_sorted_perm {A} (key : A -> string) x l :
  Permutation (insert_sorted key x l) (x :: l).
Proof.
  induction l as [|y l IH]; simpl; [reflexivity|].
  destruct (str_ltb (key y) (key x)); [|reflexivity].
  rewrite IH. apply perm_swap.
Qed.

Lemma sort_by_perm {A} (key : A -> string) l : Permutation (sort_by key l) l.
Proof.
  induction l as [|x l IH]; simpl; [reflexivity|].
  rewrite insert_sorted_perm. constructor. exact IH.
Qed.

Lemma slow_loop_in {A} (f : A -> string) ps path best sub sh pc s :
  slow_loop f ps path best sub sh = (Some pc, s) -> In pc ps \/ best = Some pc.
Proof.
  revert best sub sh.
  induction ps as [|p ps IH]; intros best sub sh H; simpl in H.
  - injection H as -> _. right. reflexivity.
  - destruct (Nat.leb (len path) (len (f p))).
    + destruct (IH _ _ _ H); [left; right|right]; assumption.
    + destruct (Nat.ltb _ sh); destruct (IH _ _ _ H) as [Hi|Hb];
        try (left; right; assumption).
      * injection Hb as ->. left; left; reflexivity.
      * right; assumption.
Qed.

Lemma firstn_in {A} n (l : list A) x : In x (firstn n l) -> In x l.
Proof. intros H. rewrite <- (firstn_skipn n l). apply in_or_app. left. exact H. Qed.

(** the mount [find] returns is one of the set *)
Lemma find_in {A} (f : A -> string) pset path pc sub :
  find f pset path = (Some pc, sub) -> In pc pset.
Proof.
  unfold find.
  set (i := Search _ _).
  set (slow := slow_loop f (firstn i pset) path None "" (len path)).
  assert (Hs : forall s, slow = (Some pc, s) -> In pc pset).
  { intros s Hs. destruct (slow_loop_in _ _ _ _ _ _ _ _ Hs) as [H|H];
      [eapply firstn_in; eassumption|discriminate]. }
  destruct (nth_error pset i) as [p|] eqn:Ei.
  - destruct (String.eqb (f p) path).
    + intros H. injection H as -> _. eapply nth_error_In; eassumption.
    + destruct i as [|i']; [apply Hs|].
      destruct (nth_error pset i') as [q|] eqn:Eq; [|apply Hs].
      destruct (HasPrefix path (f q ++ "/")); [|apply Hs].
      intros H. injection H as -> _. eapply nth_error_In; eassumption.
  - destruct i as [|i']; [apply Hs|].
    destruct (nth_error pset i') as [q|] eqn:Eq; [|apply Hs].
    destruct (HasPrefix path (f q ++ "/")); [|apply Hs].
    intros H. injection H as -> _. eapply nth_error_In; eassumption.
Qed.

Lemma prepare_entry_fields cc g p e :
  let b := prepare_entry cc g p e in
  Path b = TrimSuffix p "/" /\ Repo b = Repo e /\ Redir b = Redir e
  /\ VCS b = VCS e
  /\ cacheControl b = match CacheAge e with Some a => max_age_N a | None => cc end.
Proof.
  unfold prepare_entry. cbn zeta.
  destruct (Nat.ltb _ 1); destruct (CacheAge e) eqn:Ca; simpl; rewrite ?Ca; simpl;
    repeat split.
Qed.

(** What one entry becomes when [newHandler] accepts it. *)
Lemma load_entry_ok cc g p e pc :
  load_entry cc g p e = Ok pc ->
  Path pc = TrimSuffix p "/" /\ Repo pc = Repo e /\ Redir pc = Redir e
  /\ cacheControl pc = match CacheAge e with Some a => max_age_N a | None => cc end
  /\ (VCS e <> "" -> VCS pc = VCS e /\ unknown_vcs (VCS e) = false)
  /\ (VCS e = "" -> HasPrefix (Repo e) github_prefix = true -> VCS pc = "git")
  /\ (VCS e = "" -> HasPrefix (Repo e) github_prefix = false ->
      VCS pc = "" /\ Repo e = "" /\ Redir e <> "").
Proof.
  unfold load_entry. cbn zeta.
  destruct (prepare_entry_fields cc g p e) as [F1 [F2 [F3 [F4 F5]]]].
  revert F1 F2 F3 F4 F5. generalize (prepare_entry cc g p e) as b.
  intros b F1 F2 F3 F4 F5. rewrite F2, F3, F4.
  destruct (String.eqb_spec (VCS e) "") as [Hv|Hv]; simpl.
  - destruct (HasPrefix (Repo e) github_prefix) eqn:Hg.
    + intros H. injection H as <-. simpl.
      repeat split; auto; intros; congruence.
    + destruct (String.eqb_spec (Repo e) "") as [Hr|Hr];
        destruct (String.eqb_spec (Redir e) "") as [Hd|Hd]; simpl;
        try discriminate.
      intros H. injection H as <-.
      repeat split; auto; intros; congruence.
  - destruct (unknown_vcs (VCS e)) eqn:Hu; [discriminate|].
    intros H. injection H as <-.
    repeat split; auto; intros; congruence.
Qed.

Lemma load_entry_err cc g p e :
  (exists err, load_entry cc g p e = Err err) <-> vcs_rejected e.
Proof.
  unfold load_entry, vcs_rejected. cbn zeta.
  destruct (prepare_entry_fields cc g p e) as [_ [F2 [F3 [F4 _]]]].
  revert F2 F3 F4. generalize (prepare_entry cc g p e) as b.
  intros b F2 F3 F4. rewrite F2, F3, F4.
  destruct (String.eqb_spec (VCS e) "") as [Hv|Hv]; simpl.
  - destruct (HasPrefix (Repo e) github_prefix) eqn:Hg.
    + split; [intros [err H]; discriminate|].
      intros [[H1 H2]|[H1 [H2 H3]]]; congruence.
    + destruct (String.eqb_spec (Repo e) "") as [Hr|Hr];
        destruct (String.eqb_spec (Redir e) "") as [Hd|Hd]; simpl;
        (split; [intros _|intros _; eexists; reflexivity]) || idtac;
        try (right; repeat split; auto; tauto).
      split; [intros [err H]; discriminate|].
      intros [[H1 H2]|[H1 [H2 H3]]]; [congruence|]. tauto.
  - destruct (unknown_vcs (VCS e)) eqn:Hu.
    + split; [intros _|intros _; eexists; reflexivity].
      left. split; [assumption|]. apply unknown_vcs_spec. assumption.
    + split; [intros [err H]; discriminate|].
      intros [[H1 H2]|[H1 _]]; [|contradiction].
      apply unknown_vcs_spec in H2. congruence.
Qed.

Lemma load_loop_ok cc g entries out :
  load_loop cc g entries = Ok out ->
  (forall pc, In pc (map snd out) ->
     exists p e, In (p, e) entries /\ load_entry cc g p e = Ok pc)
  /\ (forall p e, In (p, e) entries ->
     exists pc, In pc (map snd out) /\ load_entry cc g p e = Ok pc).
Proof.
  revert out. induction entries as [|[p e] rest IH]; intros out H; simpl in H.
  - injection H as <-. simpl. split; intros; contradiction.
  - destruct (load_entry cc g p e) as [e'|err] eqn:E; [|discriminate].
    destruct (load_loop cc g rest) as [rest'|err] eqn:R; [|discriminate].
    injection H as <-. destruct (IH rest' eq_refl) as [IH1 IH2]. split.
    + intros pc [<-|Hin]; [exists p, e; simpl; auto|].
      destruct (IH1 pc Hin) as [p' [e0 [Hi He]]]. exists p', e0. simpl. auto.
    + intros p' e0 [Heq|Hin].
      * injection Heq as <- <-. exists e'. simpl. auto.
      * destruct (IH2 p' e0 Hin) as [pc [Hi He]]. exists pc. simpl. auto.
Qed.

Lemma load_loop_err cc g entries :
  (exists err, load_loop cc g entries = Err err) <->
  exists p e, In (p, e) entries /\ exists err, load_entry cc g p e = Err err.
Proof.
  induction entries as [|[p e] rest IH]; simpl.
  - split; [intros [err H]; discriminate|intros [p [e [[] _]]]].
  - destruct (load_entry cc g p e) as [e'|err] eqn:E.
    + destruct (load_loop cc g rest) as [rest'|err] eqn:R.
      * split; [intros [err H]; discriminate|].
        intros [p' [e0 [[Heq|Hin] Herr]]].
        -- injection Heq as <- <-. destruct Herr as [err H]. congruence.
        -- destruct (proj2 IH (ex_intro _ p' (ex_intro _ e0 (conj Hin Herr)))) as [x Hx].
           discriminate.
      * split; [intros _|intros _; exists err; reflexivity].
        destruct (proj1 IH (ex_intro _ err eq_refl)) as [p' [e0 [Hin Herr]]].
        exists p', e0. auto.
    + split; [intros _|intros _; exists err; reflexivity].
      exists p, e. split; [left; reflexivity|exists err; exact E].
Qed.

Lemma StringInSlices_spec str slice :
  StringInSlices str slice = true <-> exists m, In m slice /\ Contains str m = true.
Proof.
  induction slice as [|m rest IH]; simpl.
  - split; [discriminate|intros [m [[] _]]].
  - destruct (Contains str m) eqn:C.
    + split; [intros _; exists m; auto|reflexivity].
    + rewrite IH. split.
      * intros [m' [Hi Hc]]. exists m'. auto.
      * intros [m' [[<-|Hi] Hc]]; [congruence|]. exists m'. auto.
Qed.

Lemma load_entry_CacheAge cc g p e pc :
  load_entry cc g p e = Ok pc -> CacheAge pc = CacheAge e.
Proof.
  assert (Hb : CacheAge (prepare_entry cc g p e) = CacheAge e).
  { unfold prepare_entry. cbn zeta.
    unfold set_Display, set_cacheControl, set_RedirPaths, set_Path.
    destruct (Nat.ltb _ 1); cbn; destruct (CacheAge e); reflexivity. }
  unfold load_entry. cbn zeta. revert Hb. generalize (prepare_entry cc g p e) as b.
  intros b Hb.
  destruct (negb _); [destruct (unknown_vcs _); [discriminate|]|].
  - intros H; injection H as <-; exact Hb.
  - destruct (HasPrefix _ _); [intros H; injection H as <-; exact Hb|].
    destruct (_ && _); [intros H; injection H as <-; exact Hb|discriminate].
Qed.

(** a mount of a loaded handler comes from one entry of the configuration *)
Lemma loaded_mount c h pc :
  newHandler c = Ok h -> In pc (PathConfigs h) ->
  exists p e, In (p, e) (cfg_Paths c)
    /\ load_entry (match cfg_CacheAge c with
                   | None => "public, max-age=86400"
                   | Some a => max_age_N a
                   end) (cfg_RedirPaths c) p e = Ok pc.
Proof.
  unfold newHandler. intros H Hin.
  destruct (load_loop _ _ _) as [entries|err] eqn:E; [|discriminate].
  injection H as <-. simpl in Hin.
  apply (Permutation_in _ (sort_by_perm Path _)) in Hin.
  exact (proj1 (load_loop_ok _ _ _ _ E) pc Hin).
Qed.

End Handler001Facts.

(** C4 (counterexample). In the configuration [config001], "/dl" is a
    redirect-only mount (redirect target set, no repository) with the
    marker "releases". The request "/dl" resolves to it with the empty
    subpath, which holds no marker, and the handler answers "not found",
    not a redirect. *)
Lemma redirect_only_without_marker_not_found :
  Handler001.newHandler config001 = Ok handler001
  /\ find Handler001.Path (Handler001.PathConfigs handler001) "/dl" = (Some dl_mount, "")
  /\ Handler001.Redir dl_mount <> "" /\ Handler001.Repo dl_mount = ""
  /\ Handler001.ServeHTTP handler001 (req "/dl") = RespNotFound.
Proof. vm_compute. repeat split; discriminate. Qed.

(** C4 (amended). For every matched mount and subpath, the dispatcher
    redirects (always with status 302, to the redirect target followed by
    the request path less the mount path) exactly when the mount has a
    redirect target and the subpath contains one of its markers. A
    redirect-only mount whose subpath holds no marker yields "not found". *)
Theorem dispatch_redirect_iff current host pc subpath :
  (forall loc code,
     Handler001.dispatch current host pc subpath = RespRedirect loc code ->
     code = 302%Z /\ loc = Handler001.Redir pc ++ TrimPrefix current (Handler001.Path pc))
  /\ ((exists loc, Handler001.dispatch current host pc subpath = RespRedirect loc 302%Z) <->
      Handler001.Redir pc <> ""
      /\ exists m, In m (Handler001.RedirPaths pc) /\ Contains subpath m = true)
  /\ (Handler001.Redir pc <> "" -> Handler001.Repo pc = "" ->
      (forall m, In m (Handler001.RedirPaths pc) -> Contains subpath m = false) ->
      Handler001.dispatch current host pc subpath = RespNotFound).
Proof.
  unfold Handler001.dispatch.
  destruct (String.eqb_spec (Handler001.Redir pc) "") as [Hr|Hr]; simpl.
  - destruct (String.eqb (Handler001.Repo pc) "");
      (split; [intros loc code H; discriminate|split]);
      try (split; [intros [loc H]; discriminate|intros [H _]; contradiction]);
      intros H; contradiction.
  - destruct (Handler001.StringInSlices subpath (Handler001.RedirPaths pc)) eqn:S.
    + split; [intros loc code H; injection H as <- <-; auto|].
      split; [split; [intros _; split; [exact Hr|apply Handler001Facts.StringInSlices_spec; exact S]
                     |intros _; eexists; reflexivity]|].
      intros _ _ Hno. exfalso.
      apply Handler001Facts.StringInSlices_spec in S as [m [Hm Hc]].
      rewrite (Hno m Hm) in Hc. discriminate.
    + assert (Hn : ~ exists m, In m (Handler001.RedirPaths pc) /\ Contains subpath m = true)
        by (intros Hm; apply Handler001Facts.StringInSlices_spec in Hm; congruence).
      destruct (String.eqb_spec (Handler001.Repo pc) "") as [He|He].
      * split; [intros loc code H; discriminate|].
        split; [split; [intros [loc H]; discriminate|intros [_ H]; contradiction]|].
        intros; reflexivity.
      * split; [intros loc code H; discriminate|].
        split; [split; [intros [loc H]; discriminate|intros [_ H]; contradiction]|].
        intros _ H; contradiction.
Qed.

Lemma dispatch_redirect_iff_witness :
  Handler001.dispatch "/dl" "example.com" dl_mount "" = RespNotFound
  /\ (exists loc, Handler001.dispatch "/dl/releases/v1.tgz" "example.com" dl_mount
                    "releases/v1.tgz" = RespRedirect loc 302%Z).
Proof.
  split.
  - apply (proj2 (proj2 (dispatch_redirect_iff "/dl" "example.com" dl_mount ""))).
    + discriminate.
    + reflexivity.
    + simpl. intros m [<-|[]]. reflexivity.
  - apply (proj2 (proj1 (proj2 (dispatch_redirect_iff "/dl/releases/v1.tgz" "example.com"
                                  dl_mount "releases/v1.tgz")))).
    split; [discriminate|]. exists "releases". split; [left; reflexivity|reflexivity].
Defined.

(** Facts about the rendered pages of both handlers. *)
Module ServeFacts.
Import Handler001Facts.

Lemma dispatch_vanity current host pc subpath cc imp sub r d v :
  Handler001.dispatch current host pc subpath = RespVanity cc imp sub r d v ->
  cc = Some (Handler001.cacheControl pc).
Proof.
  unfold Handler001.dispatch.
  destruct (_ && _); [discriminate|].
  destruct (String.eqb _ _); [discriminate|].
  intros H; injection H; auto.
Qed.

Lemma serve001_vanity_found h r cc imp sub repo d v :
  Handler001.ServeHTTP h r = RespVanity cc imp sub repo d v ->
  exists pc, fst (find Handler001.Path (Handler001.PathConfigs h) (URLPath r)) = Some pc
    /\ In pc (Handler001.PathConfigs h) /\ cc = Some (Handler001.cacheControl pc)
    /\ imp = Handler001.Hostname h r ++ Handler001.Path pc
    /\ repo = Handler001.Repo pc /\ d = Handler001.Display pc /\ v = Handler001.VCS pc.
Proof.
  unfold Handler001.ServeHTTP.
  destruct (find Handler001.Path (Handler001.PathConfigs h) (URLPath r)) as [[pc|] s] eqn:F.
  - unfold Handler001.dispatch.
    destruct (_ && _); [discriminate|].
    destruct (String.eqb _ _); [discriminate|].
    intros H. injection H as H1 H2 H3 H4 H5 H6. subst.
    exists pc. split; [reflexivity|split; [exact (find_in _ _ _ _ _ F)|]].
    repeat split; reflexivity.
  - destruct (String.eqb _ _); discriminate.
Qed.

Lemma serve001_vanity h r cc imp sub repo d v :
  Handler001.ServeHTTP h r = RespVanity cc imp sub repo d v ->
  exists pc, In pc (Handler001.PathConfigs h) /\ cc = Some (Handler001.cacheControl pc).
Proof.
  unfold Handler001.ServeHTTP.
  destruct (find Handler001.Path (Handler001.PathConfigs h) (URLPath r)) as [[pc|] s] eqn:F.
  - intros H. exists pc. split; [exact (find_in _ _ _ _ _ F)|].
    exact (dispatch_vanity _ _ _ _ _ _ _ _ _ _ H).
  - destruct (String.eqb _ _); discriminate.
Qed.

Lemma serve003_vanity h r cc imp sub repo d v :
  Handler003.ServeHTTP h r = RespVanity cc imp sub repo d v ->
  cc = Some (Handler003.cacheControl h).
Proof.
  unfold Handler003.ServeHTTP.
  destruct (find path _ _) as [[pc|] s].
  - intros H. injection H; auto.
  - destruct (String.eqb _ _); discriminate.
Qed.

Lemma max_age_default : max_age_N 86400 = "public, max-age=86400".
Proof. reflexivity. Qed.

End ServeFacts.

(** C7. Cache-Control of rendered metadata pages. In the YAML handler
    ([newHandler]), every rendered page is the page of the mount the
    lookup found for the request, and carries "public, max-age=<s>",
    where s is that mount's own cache age (the one of the entry it was
    loaded from) if set, else the global one if set, else 86400; a mount
    override of 0 gives "public, max-age=0".
    There the cache ages are [uint64], so a negative value never reaches
    the loader. In the [New] handler, whose global cache age is an [int64]
    (it has no per-mount override), a negative global cache age is
    rejected at load time, and rendered pages carry
    "public, max-age=<s>" with s the global value, else 86400. *)
Theorem cache_control_header :
  (forall c h r cc imp sub repo d v,
     Handler001.newHandler c = Ok h ->
     Handler001.ServeHTTP h r = RespVanity cc imp sub repo d v ->
     exists pc p e,
       fst (find Handler001.Path (Handler001.PathConfigs h) (URLPath r)) = Some pc
       /\ In pc (Handler001.PathConfigs h)
       /\ imp = Handler001.Hostname h r ++ Handler001.Path pc
       /\ repo = Handler001.Repo pc /\ d = Handler001.Display pc /\ v = Handler001.VCS pc
       /\ In (p, e) (Handler001.cfg_Paths c)
       /\ Handler001.Path pc = TrimSuffix p "/" /\ Handler001.Repo pc = Handler001.Repo e
       /\ Handler001.CacheAge pc = Handler001.CacheAge e
       /\ cc = Some (max_age_N (match Handler001.CacheAge pc with
                                | Some a => a
                                | None => match Handler001.cfg_CacheAge c with
                                          | Some g => g
                                          | None => 86400%N
                                          end
                                end))
       /\ (Handler001.CacheAge pc = Some 0%N -> cc = Some "public, max-age=0"))
  /\ (forall config a, Handler003.CacheAge config = Some a -> (a < 0)%Z ->
        Handler003.New config = Err ErrNegativeCacheAge)
  /\ (forall config h r cc imp sub repo d v,
        Handler003.New config = Ok h ->
        Handler003.ServeHTTP h r = RespVanity cc imp sub repo d v ->
        cc = Some (max_age_Z (match Handler003.CacheAge config with
                              | Some a => a
                              | None => 86400%Z
                              end))).
Proof.
  split; [|split].
  - intros c h r cc imp sub repo d v Hn Hs.
    destruct (ServeFacts.serve001_vanity_found _ _ _ _ _ _ _ _ Hs)
      as [pc [Hf [Hin [-> [Himp [Hr [Hd Hv]]]]]]].
    destruct (Handler001Facts.loaded_mount _ _ _ Hn Hin) as [p [e [Hpe Hl]]].
    destruct (Handler001Facts.load_entry_ok _ _ _ _ _ Hl) as [HP [HR [_ [Hcc _]]]].
    pose proof (Handler001Facts.load_entry_CacheAge _ _ _ _ _ Hl) as HA.
    exists pc, p, e.
    do 10 (split; [assumption|]).
    rewrite Hcc, HA.
    destruct (Handler001.CacheAge e) as [a|];
      [|destruct (Handler001.cfg_CacheAge c); [|rewrite ServeFacts.max_age_default]];
      (split; [reflexivity|intros Ha; try discriminate]).
    injection Ha as ->. reflexivity.
  - intros config a Ha Hneg. unfold Handler003.New. rewrite Ha.
    apply Z.ltb_lt in Hneg. rewrite Hneg. reflexivity.
  - intros config h r cc imp sub repo d v Hn Hs.
    rewrite (ServeFacts.serve003_vanity _ _ _ _ _ _ _ _ Hs).
    unfold Handler003.New in Hn.
    destruct (Handler003.CacheAge config) as [a|].
    + destruct (a <? 0)%Z; [discriminate|].
      destruct (Handler003.new_loop _ _); [|discriminate].
      injection Hn as <-. reflexivity.
    + destruct (Handler003.new_loop _ _); [|discriminate].
      injection Hn as <-. reflexivity.
Qed.

Lemma cache_control_header_witness :
  (exists pc p e,
     fst (find Handler001.Path (Handler001.PathConfigs handler001) "/portmidi") = Some pc
     /\ In pc (Handler001.PathConfigs handler001)
     /\ "example.com/portmidi" = Handler001.Hostname handler001 (req "/portmidi")
                                 ++ Handler001.Path pc
     /\ "https://github.com/rakyll/portmidi" = Handler001.Repo pc
     /\ infer_display "https://github.com/rakyll/portmidi" "" = Handler001.Display pc
     /\ "git" = Handler001.VCS pc
     /\ In (p, e) (Handler001.cfg_Paths config001)
     /\ Handler001.Path pc = TrimSuffix p "/" /\ Handler001.Repo pc = Handler001.Repo e
     /\ Handler001.CacheAge pc = Handler001.CacheAge e
     /\ Some "public, max-age=0" = Some (max_age_N (match Handler001.CacheAge pc with
                                | Some a => a
                                | None => match Handler001.cfg_CacheAge config001 with
                                          | Some g => g
                                          | None => 86400%N
                                          end
                                end))
     /\ (Handler001.CacheAge pc = Some 0%N -> Some "public, max-age=0" = Some "public, max-age=0"))
  /\ Handler003.New (Handler003.mkConfig "example.com" (Some (-1)%Z) []) = Err ErrNegativeCacheAge.
Proof.
  split.
  - apply (proj1 cache_control_header config001 handler001 (req "/portmidi")
             (Some "public, max-age=0") "example.com/portmidi" ""
             "https://github.com/rakyll/portmidi"
             (infer_display "https://github.com/rakyll/portmidi" "") "git");
      vm_compute; reflexivity.
  - apply (proj1 (proj2 cache_control_header) _ (-1)%Z); [reflexivity|lia].
Defined.

(** C8. VCS checks of the YAML handler's loader. Loading fails exactly
    when some entry has a VCS outside {bzr, git, hg, svn}, or has no VCS,
    a repository that is not on GitHub, and is not redirect-only (empty
    repository, redirect target set). When loading succeeds, each entry
    yields a loaded mount with the entry's path (less a trailing "/"),
    repository and redirect target, whose VCS is the entry's own if given,
    else "git" for a GitHub repository, else empty (a redirect-only
    entry). *)
Theorem newHandler_vcs c :
  ((exists err, Handler001.newHandler c = Err err) <->
     exists p e, In (p, e) (Handler001.cfg_Paths c) /\ vcs_rejected e)
  /\ (forall h p e, Handler001.newHandler c = Ok h -> In (p, e) (Handler001.cfg_Paths c) ->
       exists pc, In pc (Handler001.PathConfigs h)
         /\ Handler001.Path pc = TrimSuffix p "/"
         /\ Handler001.Repo pc = Handler001.Repo e
         /\ Handler001.Redir pc = Handler001.Redir e
         /\ Handler001.VCS pc =
              (if String.eqb (Handler001.VCS e) "" then
                 if HasPrefix (Handler001.Repo e) github_prefix then "git" else ""
               else Handler001.VCS e)).
Proof.
  unfold Handler001.newHandler.
  set (cc := match Handler001.cfg_CacheAge c with
             | None => "public, max-age=86400" | Some a => max_age_N a end).
  split.
  - pose proof (Handler001Facts.load_loop_err cc (Handler001.cfg_RedirPaths c)
                  (Handler001.cfg_Paths c)) as Hl.
    destruct (Handler001.load_loop _ _ _) as [out|err] eqn:E.
    + split; [intros [err H]; discriminate|].
      intros [p [e [Hin Hr]]].
      pose proof (proj2 (Handler001Facts.load_entry_err cc (Handler001.cfg_RedirPaths c) p e)
                    Hr) as Hr'.
      destruct (proj2 Hl (ex_intro _ p (ex_intro _ e (conj Hin Hr')))) as [x Hx].
      discriminate.
    + split; [intros _|intros _; exists err; reflexivity].
      destruct (proj1 Hl (ex_intro _ err eq_refl)) as [p [e [Hin Hr]]].
      exists p, e. split; [exact Hin|].
      exact (proj1 (Handler001Facts.load_entry_err _ _ _ _) Hr).
  - intros h p e Hn Hin.
    destruct (Handler001.load_loop _ _ _) as [out|err] eqn:E; [|discriminate].
    injection Hn as <-. simpl.
    destruct (proj2 (Handler001Facts.load_loop_ok _ _ _ _ E) p e Hin) as [pc [Hpc Hl]].
    exists pc. split.
    { apply (Permutation_in _ (Permutation_sym (Handler001Facts.sort_by_perm _ _))).
      exact Hpc. }
    destruct (Handler001Facts.load_entry_ok _ _ _ _ _ Hl)
      as [H1 [H2 [H3 [_ [H5 [H6 H7]]]]]].
    repeat split; try assumption.
    destruct (String.eqb_spec (Handler001.VCS e) "") as [Hv|Hv].
    + destruct (HasPrefix (Handler001.Repo e) github_prefix) eqn:Hg.
      * exact (H6 Hv eq_refl).
      * exact (proj1 (H7 Hv eq_refl)).
    + exact (proj1 (H5 Hv)).
Qed.

Lemma newHandler_vcs_witness :
  exists pc, In pc (Handler001.PathConfigs handler001)
    /\ Handler001.Path pc = TrimSuffix "/portmidi" "/"
    /\ Handler001.Repo pc = "https://github.com/rakyll/portmidi"
    /\ Handler001.Redir pc = ""
    /\ Handler001.VCS pc = "git".
Proof.
  apply (proj2 (newHandler_vcs config001) handler001 "/portmidi"
           (entry001 "https://github.com/rakyll/portmidi" "" "" (Some 0%N) [])).
  - vm_compute. reflexivity.
  - simpl. left. reflexivity.
Defined.

(** C9 (counterexample). The configuration [config001] has an entry
    "/empty" with no repository, no redirect target and VCS "git". It
    loads, and its mount has both the repository and the redirect target
    empty. *)
Lemma newHandler_loads_empty_mount :
  Handler001.newHandler config001 = Ok handler001
  /\ In empty_mount (Handler001.PathConfigs handler001)
  /\ Handler001.Repo empty_mount = "" /\ Handler001.Redir empty_mount = "".
Proof. vm_compute. repeat split; auto 10. Qed.

(** C9 (amended). Every mount of a loaded YAML handler has a repository,
    or a redirect target, or else came from an entry that gave its VCS
    explicitly, as one of bzr, git, hg, svn: a mount with neither a
    repository nor a redirect target loads only with an explicit VCS. The
    entry named is the mount's own: its key less one trailing "/" is the
    mount's path, and it has the mount's repository and redirect target. *)
Theorem newHandler_mount_kinds c h pc :
  Handler001.newHandler c = Ok h -> In pc (Handler001.PathConfigs h) ->
  Handler001.Repo pc <> "" \/ Handler001.Redir pc <> ""
  \/ exists p e, In (p, e) (Handler001.cfg_Paths c)
       /\ Handler001.Path pc = TrimSuffix p "/"
       /\ Handler001.Repo pc = Handler001.Repo e /\ Handler001.Redir pc = Handler001.Redir e
       /\ Handler001.VCS e <> "" /\ Handler001.VCS pc = Handler001.VCS e
       /\ In (Handler001.VCS pc) ["bzr"; "git"; "hg"; "svn"].
Proof.
  intros Hn Hin.
  destruct (Handler001Facts.loaded_mount _ _ _ Hn Hin) as [p [e [Hpe Hl]]].
  destruct (Handler001Facts.load_entry_ok _ _ _ _ _ Hl)
    as [H1 [H2 [H3 [_ [H5 [H6 H7]]]]]].
  destruct (String.eqb_spec (Handler001.Repo pc) "") as [Hr|Hr]; [|left; exact Hr].
  destruct (String.eqb_spec (Handler001.Redir pc) "") as [Hd|Hd]; [|right; left; exact Hd].
  right; right. exists p, e. split; [exact Hpe|].
  split; [exact H1|split; [exact H2|split; [exact H3|]]].
  destruct (String.eqb_spec (Handler001.VCS e) "") as [Hv|Hv].
  - exfalso. rewrite H2 in Hr. rewrite H3 in Hd.
    assert (Hg : HasPrefix (Handler001.Repo e) github_prefix = false)
      by (rewrite Hr; reflexivity).
    destruct (H7 Hv Hg) as [_ [_ Hne]]. contradiction.
  - destruct (H5 Hv) as [Hvp Hu]. split; [exact Hv|]. split; [exact Hvp|].
    rewrite Hvp. apply NNPP. intros Hni.
    apply StringFacts.unknown_vcs_spec in Hni. congruence.
Qed.

Lemma newHandler_mount_kinds_witness :
  Handler001.Repo empty_mount <> "" \/ Handler001.Redir empty_mount <> ""
  \/ exists p e, In (p, e) (Handler001.cfg_Paths config001)
       /\ Handler001.Path empty_mount = TrimSuffix p "/"
       /\ Handler001.Repo empty_mount = Handler001.Repo e
       /\ Handler001.Redir empty_mount = Handler001.Redir e
       /\ Handler001.VCS e <> "" /\ Handler001.VCS empty_mount = Handler001.VCS e
       /\ In (Handler001.VCS empty_mount) ["bzr"; "git"; "hg"; "svn"].
Proof.
  apply (newHandler_mount_kinds config001 handler001 empty_mount).
  - vm_compute. reflexivity.
  - vm_compute. auto 10.
Defined.

(** ** More facts about the [strings] model *)

Module StrLemmas.
Import StringFacts.

Lemma app_assoc_s (a b c : string) : a ++ (b ++ c) = (a ++ b) ++ c.
Proof. induction a; simpl; f_equal; auto. Qed.

Lemma app_empty_s (a : string) : a ++ "" = a.
Proof. induction a; simpl; f_equal; auto. Qed.

Lemma len_app (a b : string) : len (a ++ b) = len a + len b.
Proof. unfold len. induction a; simpl; auto. Qed.

Lemma HasPrefix_app (p r : string) : HasPrefix (p ++ r) p = true.
Proof.
  induction p as [|c p IH]; simpl; [destruct r; reflexivity|].
  rewrite Ascii.eqb_refl. exact IH.
Qed.

Lemma str_drop_app (p r : string) : str_drop (len p) (p ++ r) = r.
Proof. induction p; simpl; auto. Qed.

Lemma str_take_app (p r : string) : str_take (len p) (p ++ r) = p.
Proof. induction p; simpl; f_equal; auto. Qed.

Lemma str_drop_empty n : str_drop n "" = "".
Proof. destruct n; reflexivity. Qed.

Lemma take_drop n (s : string) : str_take n s ++ str_drop n s = s.
Proof.
  revert s; induction n as [|n IH]; intros [|c s]; simpl; f_equal; auto.
Qed.

Lemma HasPrefix_spec (s p : string) :
  HasPrefix s p = true -> s = p ++ str_drop (len p) s.
Proof.
  revert s; induction p as [|c p IH]; intros s H; [reflexivity|].
  destruct s as [|d s]; simpl in H; [discriminate|].
  apply andb_prop in H as [E H]. apply Ascii.eqb_eq in E. subst d.
  simpl. f_equal. apply IH, H.
Qed.

Lemma HasPrefix_iff (s p : string) :
  HasPrefix s p = true <-> exists r, s = p ++ r.
Proof.
  split.
  - intros H. exists (str_drop (len p) s). apply HasPrefix_spec, H.
  - intros [r ->]. apply HasPrefix_app.
Qed.

Lemma TrimPrefix_app (p r : string) : TrimPrefix (p ++ r) p = r.
Proof. unfold TrimPrefix. rewrite HasPrefix_app. apply str_drop_app. Qed.

Lemma TrimSuffix_app (a b : string) : TrimSuffix (a ++ b) b = a.
Proof.
  unfold TrimSuffix, HasSuffix.
  rewrite len_app, Nat.add_sub, str_drop_app, String.eqb_refl.
  replace (Nat.leb (len b) (len a + len b)) with true
    by (symmetry; apply Nat.leb_le; lia).
  simpl. apply str_take_app.
Qed.

Lemma Index_eq (s sub : string) :
  Index s sub =
  if HasPrefix s sub then Some 0
  else match s with
       | EmptyString => None
       | String _ s' => option_map S (Index s' sub)
       end.
Proof. destruct s; reflexivity. Qed.

Lemma Index_some_prefix (s sub : string) i :
  Index s sub = Some i -> HasPrefix (str_drop i s) sub = true.
Proof.
  revert i; induction s as [|c s IH]; intros i H; rewrite Index_eq in H.
  - destruct (HasPrefix "" sub) eqn:E; [|discriminate].
    injection H as <-. exact E.
  - destruct (HasPrefix (String c s) sub) eqn:E.
    + injection H as <-. exact E.
    + destruct (Index s sub) as [j|]; [|discriminate].
      injection H as <-. apply IH. reflexivity.
Qed.

Lemma HasPrefix_empty (s : string) : HasPrefix s "" = true.
Proof. destruct s; reflexivity. Qed.

Lemma HasPrefix_cons_char (d c : ascii) (s : string) :
  HasPrefix (String d s) (String c "") = Ascii.eqb c d.
Proof. simpl. rewrite HasPrefix_empty. apply andb_true_r. Qed.

Lemma Index_char_take (s : string) c i :
  Index s (String c "") = Some i -> Index (str_take i s) (String c "") = None.
Proof.
  revert i; induction s as [|d s IH]; intros i H; rewrite Index_eq in H.
  - discriminate.
  - rewrite HasPrefix_cons_char in H.
    destruct (Ascii.eqb c d) eqn:E.
    + injection H as <-. reflexivity.
    + destruct (Index s (String c "")) as [j|] eqn:Ej; [|discriminate].
      injection H as <-. simpl str_take. rewrite Index_eq, HasPrefix_cons_char, E.
      rewrite (IH j eq_refl). reflexivity.
Qed.

Lemma drop_char (s : string) i c :
  HasPrefix (str_drop i s) (String c "") = true ->
  str_drop i s = String c (str_drop (i + 1) s).
Proof.
  revert i; induction s as [|d s IH]; intros i H.
  - rewrite str_drop_empty in H. discriminate.
  - destruct i as [|i]; simpl in H |- *.
    + rewrite HasPrefix_empty, andb_true_r in H. apply Ascii.eqb_eq in H. subst d.
      destruct s; reflexivity.
    + apply IH, H.
Qed.

Lemma HasPrefix_char (s : string) c :
  HasPrefix s (String c "") = true -> exists r, s = String c r.
Proof.
  intros H. apply HasPrefix_spec in H. simpl in H. eexists; exact H.
Qed.

End StrLemmas.

(** ** Helper lemmas for the wildcard matcher *)

Module RulesLemmas.

Lemma splitSubpath_ok name a b :
  Rules.splitSubpath name = (a, b) ->
  name = a ++ b /\ Index a "/" = None /\ (b = "" \/ exists r, b = "/" ++ r).
Proof.
  unfold Rules.splitSubpath.
  destruct (Index name "/") as [i|] eqn:E; intros H; injection H as <- <-.
  - split; [symmetry; apply StrLemmas.take_drop|].
    split; [exact (StrLemmas.Index_char_take _ _ _ E)|].
    right. apply StrLemmas.HasPrefix_char, StrLemmas.Index_some_prefix with (1 := E).
  - split; [symmetry; apply StrLemmas.app_empty_s|]. auto.
Qed.

End RulesLemmas.

(** ** Helper lemmas for the static lookups *)

Module FindLemmas.

Lemma len_str_drop n (s : string) : len (str_drop n s) <= len s.
Proof.
  revert s; induction n as [|n IH]; intros [|c s]; simpl; auto.
Qed.

Lemma TrimPrefix_len (s p : string) :
  HasPrefix s p = false -> TrimPrefix s p = s.
Proof. unfold TrimPrefix. intros ->. reflexivity. Qed.

(** The slow-path loop only ever keeps a mount whose path starts the
    request, with the rest of the request as subpath. *)
Lemma slow_loop_sound {A} (path_of : A -> string) ps q best sub sh r s :
  slow_loop path_of ps q best sub sh = (r, s) ->
  sh <= len q ->
  (forall p, best = Some p -> q = path_of p ++ sub) ->
  (best = None -> sub = "") ->
  match r with
  | Some p => (In p ps \/ best = Some p) /\ q = path_of p ++ s
  | None => s = ""
  end.
Proof.
  revert best sub sh.
  induction ps as [|p ps IH]; intros best sub sh H Hsh Hb Hn; simpl in H.
  - injection H as <- <-. destruct best as [p|]; [split; auto|auto].
  - destruct (Nat.leb (len q) (len (path_of p))).
    + pose proof (IH _ _ _ H Hsh Hb Hn) as R.
      destruct r as [x|]; [|exact R].
      destruct R as [[Hin|Hx] Hq]; split; auto. left; right; exact Hin.
    + destruct (Nat.ltb (len (TrimPrefix q (path_of p))) sh) eqn:Hlt.
      * destruct (HasPrefix q (path_of p)) eqn:Hp.
        2:{ exfalso. rewrite (TrimPrefix_len _ _ Hp) in Hlt.
            apply Nat.ltb_lt in Hlt. lia. }
        assert (Hq : q = path_of p ++ TrimPrefix q (path_of p)).
        { unfold TrimPrefix. rewrite Hp. apply StrLemmas.HasPrefix_spec, Hp. }
        pose proof (IH _ _ _ H) as R.
        assert (Hl : len (TrimPrefix q (path_of p)) <= len q)
          by (unfold TrimPrefix; destruct (HasPrefix q (path_of p));
              [apply len_str_drop|lia]).
        specialize (R Hl (fun x E => ltac:(injection E as <-; exact Hq))
                      (fun E => ltac:(discriminate E))).
        destruct r as [x|]; [|exact R].
        destruct R as [[Hin|Hx] Hq']; split; auto.
        -- left; right; exact Hin.
        -- left; left; injection Hx; auto.
      * pose proof (IH _ _ _ H Hsh Hb Hn) as R.
        destruct r as [x|]; [|exact R].
        destruct R as [[Hin|Hx] Hq]; split; auto. left; right; exact Hin.
Qed.

End FindLemmas.

(** ** Go's string order, [sort.Search] and the sorted mount lists *)

Module OrderLemmas.

Lemma N_of_ascii_inj (a b : ascii) : N_of_ascii a = N_of_ascii b -> a = b.
Proof.
  intros H. rewrite <- (ascii_N_embedding a), <- (ascii_N_embedding b), H.
  reflexivity.
Qed.

Lemma str_ltb_irrefl (a : string) : str_ltb a a = false.
Proof. induction a as [|c a IH]; simpl; [reflexivity|]. rewrite N.ltb_irrefl. exact IH. Qed.

Lemma str_ltb_trichotomy (a b : string) :
  str_ltb a b = true \/ a = b \/ str_ltb b a = true.
Proof.
  revert b; induction a as [|c a IH]; intros [|d b]; simpl; auto.
  destruct (N.ltb_spec (N_of_ascii c) (N_of_ascii d));
  destruct (N.ltb_spec (N_of_ascii d) (N_of_ascii c)); auto; try lia.
  assert (E : c = d) by (apply N_of_ascii_inj; lia). subst d.
  destruct (IH b) as [H1|[H1|H1]]; auto. right; left; f_equal; exact H1.
Qed.

Lemma str_ltb_trans (a b c : string) :
  str_ltb a b = true -> str_ltb b c = true -> str_ltb a c = true.
Proof.
  revert b c; induction a as [|x a IH]; intros [|y b] [|z c]; simpl; auto;
    try discriminate.
  destruct (N.ltb_spec (N_of_ascii x) (N_of_ascii y));
  destruct (N.ltb_spec (N_of_ascii y) (N_of_ascii x));
  destruct (N.ltb_spec (N_of_ascii y) (N_of_ascii z));
  destruct (N.ltb_spec (N_of_ascii z) (N_of_ascii y));
  destruct (N.ltb_spec (N_of_ascii x) (N_of_ascii z));
  destruct (N.ltb_spec (N_of_ascii z) (N_of_ascii x));
  intros; try discriminate; try lia; auto.
  apply (IH b c); assumption.
Qed.

Lemma str_ltb_asym (a b : string) : str_ltb a b = true -> str_ltb b a = false.
Proof.
  intros H. destruct (str_ltb b a) eqn:E; [|reflexivity].
  pose proof (str_ltb_trans _ _ _ H E) as H'. rewrite str_ltb_irrefl in H'. discriminate.
Qed.

(** [a <= b] as [!(b < a)] *)
Lemma str_le_trans (a b c : string) :
  str_ltb b a = false -> str_ltb c b = false -> str_ltb c a = false.
Proof.
  intros H1 H2. destruct (str_ltb c a) eqn:H3; [|reflexivity].
  destruct (str_ltb_trichotomy a b) as [H|[<-|H]].
  - rewrite (str_ltb_trans _ _ _ H3 H) in H2. discriminate.
  - rewrite H3 in H2. discriminate.
  - rewrite H in H1. discriminate.
Qed.

Lemma str_le_antisym (a b : string) :
  str_ltb a b = false -> str_ltb b a = false -> a = b.
Proof.
  intros H1 H2. destruct (str_ltb_trichotomy a b) as [H|[H|H]]; congruence.
Qed.

Lemma search_loop_S (f : nat -> bool) fuel i j :
  search_loop (S fuel) f i j =
  if Nat.ltb i j then
    if negb (f ((i + j) / 2)) then search_loop fuel f ((i + j) / 2 + 1) j
    else search_loop fuel f i ((i + j) / 2)
  else i.
Proof. reflexivity. Qed.

(** [sort.Search] returns the first index where a predicate that is
    monotone on [0, n) holds, or [n]. *)
Lemma search_loop_spec (f : nat -> bool) n fuel i j :
  (forall a b, a <= b < n -> f a = true -> f b = true) ->
  i <= j <= n -> j - i < fuel ->
  (forall k, k < i -> f k = false) ->
  (forall k, j <= k < n -> f k = true) ->
  (forall k, k < search_loop fuel f i j -> f k = false)
  /\ (forall k, search_loop fuel f i j <= k < n -> f k = true)
  /\ search_loop fuel f i j <= n.
Proof.
  intros Hmono. revert i j.
  induction fuel as [|fuel IH]; intros i j Hij Hfuel Hlo Hhi; [lia|].
  rewrite search_loop_S. destruct (Nat.ltb_spec i j) as [Hlt|Hge].
  - set (h := (i + j) / 2).
    assert (Hh : i <= h < j).
    { pose proof (Nat.div_mod_eq (i + j) 2).
      pose proof (Nat.mod_upper_bound (i + j) 2 ltac:(lia)).
      unfold h. lia. }
    destruct (f h) eqn:Fh; simpl.
    + apply IH; try lia.
      * exact Hlo.
      * intros k Hk. apply (Hmono h k); [lia|exact Fh].
    + apply IH; try lia.
      * intros k Hk. destruct (Nat.lt_ge_cases k i) as [Hki|Hki]; [apply Hlo; lia|].
        destruct (f k) eqn:Fk; [|reflexivity].
        rewrite (Hmono k h ltac:(lia) Fk) in Fh. discriminate.
      * exact Hhi.
  - assert (i = j) by lia. subst j. split; [exact Hlo|split; [exact Hhi|lia]].
Qed.

Lemma Search_spec (f : nat -> bool) n :
  (forall a b, a <= b < n -> f a = true -> f b = true) ->
  (forall k, k < Search n f -> f k = false)
  /\ (forall k, Search n f <= k < n -> f k = true)
  /\ Search n f <= n.
Proof.
  intros Hmono. apply search_loop_spec; auto; try lia.
Qed.

Section Sorting.
Variable A : Type.
Variable key : A -> string.


Lemma insert_sorted_sorted x l :
  Sorted (Predicates.le_key key) l -> Sorted (Predicates.le_key key) (insert_sorted key x l).
Proof.
  induction 1 as [|y l Hs IH Hhd]; simpl; [constructor; constructor|].
  destruct (str_ltb (key y) (key x)) eqn:E.
  - constructor; [exact IH|].
    assert (Hyx : (Predicates.le_key key) y x) by (unfold Predicates.le_key; exact (str_ltb_asym _ _ E)).
    destruct l as [|z l]; simpl; [constructor; exact Hyx|].
    inversion Hhd; subst.
    destruct (str_ltb (key z) (key x)); constructor; assumption.
  - constructor; [constructor; assumption|]. constructor. exact E.
Qed.

Lemma sort_by_sorted l : Sorted (Predicates.le_key key) (sort_by key l).
Proof.
  induction l as [|x l IH]; simpl; [constructor|].
  apply insert_sorted_sorted, IH.
Qed.

Lemma le_key_trans : RelationClasses.Transitive (Predicates.le_key key).
Proof. intros x y z H1 H2. unfold Predicates.le_key in *. exact (str_le_trans _ _ _ H1 H2). Qed.

Lemma sorted_nth l i j a b :
  Sorted (Predicates.le_key key) l -> i <= j ->
  nth_error l i = Some a -> nth_error l j = Some b -> (Predicates.le_key key) a b.
Proof.
  intros Hs. apply (Sorted_StronglySorted le_key_trans) in Hs.
  revert i j. induction Hs as [|x l Hs IH Hall]; intros i j Hij Ei Ej.
  - destruct i; discriminate.
  - destruct i as [|i]; destruct j as [|j]; simpl in Ei, Ej.
    + injection Ei as <-. injection Ej as <-. unfold Predicates.le_key. apply str_ltb_irrefl.
    + injection Ei as <-. rewrite Forall_forall in Hall.
      apply Hall. exact (nth_error_In _ _ Ej).
    + lia.
    + apply (IH i j); [lia|exact Ei|exact Ej].
Qed.

(** In a sorted set, the index [sort.Search] finds for the path of a
    mount of the set holds a mount with that path. *)
Lemma search_exact (pset : list A) pc :
  Sorted (Predicates.le_key key) pset -> In pc pset ->
  exists p,
    nth_error pset (Search (List.length pset) (fun k =>
      match nth_error pset k with
      | Some p => str_geb (key p) (key pc)
      | None => false
      end)) = Some p
    /\ key p = key pc.
Proof.
  intros Hs Hin.
  set (f := fun k => match nth_error pset k with
                     | Some p => str_geb (key p) (key pc)
                     | None => false
                     end).
  assert (Hmono : forall a b, a <= b < List.length pset -> f a = true -> f b = true).
  { intros a b Hab Fa. unfold f in *.
    destruct (nth_error pset a) as [pa|] eqn:Ea; [|discriminate].
    destruct (nth_error pset b) as [pb|] eqn:Eb.
    2:{ apply nth_error_None in Eb. lia. }
    unfold str_geb in *. apply negb_true_iff in Fa. apply negb_true_iff.
    pose proof (sorted_nth _ _ _ _ _ Hs (proj1 Hab) Ea Eb) as Hle. unfold Predicates.le_key in Hle.
    exact (str_le_trans _ _ _ Fa Hle). }
  destruct (Search_spec f _ Hmono) as [Hlo [Hhi Hle]].
  destruct (In_nth_error _ _ Hin) as [m Em].
  assert (Hm : m < List.length pset) by (apply nth_error_Some; congruence).
  assert (Fm : f m = true)
    by (unfold f; rewrite Em; unfold str_geb; rewrite str_ltb_irrefl; reflexivity).
  assert (Hr : Search (List.length pset) f <= m).
  { destruct (Nat.le_gt_cases (Search (List.length pset) f) m) as [H|H]; [exact H|].
    rewrite (Hlo m H) in Fm. discriminate. }
  fold f. set (r := Search (List.length pset) f) in *. clearbody r.
  destruct (nth_error pset r) as [p|] eqn:Ep.
  2:{ apply nth_error_None in Ep. lia. }
  exists p. split; [reflexivity|].
  assert (Fr : f r = true) by (apply Hhi; lia).
  unfold f in Fr. rewrite Ep in Fr. unfold str_geb in Fr. apply negb_true_iff in Fr.
  pose proof (sorted_nth _ _ _ _ _ Hs Hr Ep Em) as Hpm. unfold Predicates.le_key in Hpm.
  apply str_le_antisym; assumption.
Qed.

End Sorting.

End OrderLemmas.

(** ** Helper lemmas for the static loaders ([New], [parsePaths]) *)

Module LoadLemmas.

Import Predicates.

Lemma new_entry_ok k e pc :
  Handler003.new_entry k e = Ok pc -> pc = loaded_mount k e.
Proof.
  unfold Handler003.new_entry, loaded_mount.
  destruct (String.eqb_spec (VCS e) ""); simpl.
  - destruct (HasPrefix (Repo e) github_prefix); [|discriminate].
    intros H; injection H as <-. reflexivity.
  - destruct (unknown_vcs (VCS e)); [discriminate|].
    intros H; injection H as <-. reflexivity.
Qed.

Lemma new_entry_err k e :
  (exists err, Handler003.new_entry k e = Err err) <-> entry_rejected e.
Proof.
  unfold Handler003.new_entry, entry_rejected.
  destruct (String.eqb_spec (VCS e) "") as [Hv|Hv]; simpl.
  - destruct (HasPrefix (Repo e) github_prefix) eqn:Hg.
    + split; [intros [err H]; discriminate|].
      intros [[H _]|[_ H]]; [contradiction|discriminate].
    + split; [intros _; right; auto|intros _; eexists; reflexivity].
  - destruct (unknown_vcs (VCS e)) eqn:Hu.
    + split; [intros _; left; split; [exact Hv|apply StringFacts.unknown_vcs_spec, Hu]|].
      intros _; eexists; reflexivity.
    + split; [intros [err H]; discriminate|].
      intros [[_ H]|[H _]]; [|contradiction].
      apply StringFacts.unknown_vcs_spec in H. congruence.
Qed.

Lemma new_loop_ok entries acc out :
  Handler003.new_loop entries acc = Ok out ->
  List.length out = List.length acc + List.length entries
  /\ (forall pc, In pc out <->
        In pc acc \/ exists k e, In (k, e) entries /\ Handler003.new_entry k e = Ok pc)
  /\ (forall k e, In (k, e) entries -> exists pc, Handler003.new_entry k e = Ok pc).
Proof.
  revert acc. induction entries as [|[k e] rest IH]; intros acc H; simpl in H.
  - injection H as <-. simpl. split; [lia|split; [|intros k e []]].
    intros pc. split; [auto|intros [H|[k [e [[] _]]]]; exact H].
  - destruct (Handler003.new_entry k e) as [pc0|err] eqn:E; [|discriminate].
    destruct (IH _ H) as [Hlen [Hin Hall]]. split; [|split].
    + rewrite Hlen, length_app. simpl. lia.
    + intros pc. rewrite Hin, in_app_iff. simpl. split.
      * intros [[H1|[<-|[]]]|[k' [e' [H1 H2]]]]; auto.
        -- right. exists k, e. auto.
        -- right. exists k', e'. auto.
      * intros [H1|[k' [e' [[Eq|H1] H2]]]]; auto.
        injection Eq as <- <-. left; right; left. congruence.
        right. exists k', e'. auto.
    + intros k' e' [Eq|H1]; [injection Eq as <- <-; eexists; exact E|exact (Hall _ _ H1)].
Qed.

Lemma new_loop_err entries acc :
  (exists err, Handler003.new_loop entries acc = Err err) <->
  exists k e, In (k, e) entries /\ entry_rejected e.
Proof.
  revert acc. induction entries as [|[k e] rest IH]; intros acc; simpl.
  - split; [intros [err H]; discriminate|intros [k [e [[] _]]]].
  - destruct (Handler003.new_entry k e) as [pc|err] eqn:E.
    + rewrite IH. split.
      * intros [k' [e' [H1 H2]]]. exists k', e'. auto.
      * intros [k' [e' [[Eq|H1] H2]]].
        -- injection Eq as <- <-.
           destruct (proj2 (new_entry_err k e) H2) as [err H]. congruence.
        -- exists k', e'. auto.
    + split; [intros _|intros _; eexists; reflexivity].
      exists k, e. split; [left; reflexivity|].
      apply (proj1 (new_entry_err k e)). eexists; exact E.
Qed.

(** what [New] and [parsePaths] share: the sorted result of the loop *)
Lemma loaded_paths entries out :
  Handler003.new_loop entries [] = Ok out ->
  Sorted (Predicates.le_key path) (sort_by path out)
  /\ List.length (sort_by path out) = List.length entries
  /\ (forall pc, In pc (sort_by path out) <->
        exists k e, In (k, e) entries /\ pc = loaded_mount k e)
  /\ (forall k e, In (k, e) entries -> In (loaded_mount k e) (sort_by path out)).
Proof.
  intros H. destruct (new_loop_ok _ _ _ H) as [Hlen [Hin Hall]].
  pose proof (Handler001Facts.sort_by_perm path out) as Hp.
  split; [apply OrderLemmas.sort_by_sorted|split; [|split]].
  - rewrite (Permutation_length Hp). exact Hlen.
  - intros pc. split.
    + intros Hpc. apply (Permutation_in _ Hp), Hin in Hpc.
      destruct Hpc as [[]|[k [e [H1 H2]]]].
      exists k, e. split; [exact H1|exact (new_entry_ok _ _ _ H2)].
    + intros [k [e [H1 ->]]]. apply (Permutation_in _ (Permutation_sym Hp)), Hin.
      right. destruct (Hall _ _ H1) as [pc E].
      exists k, e. split; [exact H1|]. rewrite E. f_equal.
      exact (new_entry_ok _ _ _ E).
  - intros k e H1. apply (Permutation_in _ (Permutation_sym Hp)), Hin.
    right. destruct (Hall _ _ H1) as [pc E].
    exists k, e. split; [exact H1|]. rewrite E. f_equal.
    exact (new_entry_ok _ _ _ E).
Qed.

Lemma New_ok config h :
  Handler003.New config = Ok h ->
  exists out, Handler003.new_loop (Handler003.Paths config) [] = Ok out
              /\ Handler003.paths h = sort_by path out.
Proof.
  unfold Handler003.New. intros H.
  destruct (Handler003.CacheAge config) as [a|];
    [destruct (a <? 0)%Z; [discriminate|]|];
    destruct (Handler003.new_loop _ _) as [out|err]; try discriminate;
    injection H as <-; exists out; auto.
Qed.

End LoadLemmas.

(** ** Exact matches in sorted sets *)

Module ExactLemmas.

Lemma find_exact_aux {A} (path_of : A -> string) pset pc :
  Sorted (Predicates.le_key path_of) pset -> In pc pset ->
  exists pc', find path_of pset (path_of pc) = (Some pc', "") /\ path_of pc' = path_of pc.
Proof.
  intros Hs Hin.
  destruct (OrderLemmas.search_exact _ _ _ _ Hs Hin) as [p [Ep Hp]].
  unfold find. cbv zeta. rewrite Ep, Hp, String.eqb_refl.
  exists p. split; [reflexivity|exact Hp].
Qed.

Lemma main_find_exact_aux pset pc :
  Sorted (Predicates.le_key path) pset -> In pc pset ->
  exists pc', Main.find pset (path pc) = (Some pc', "") /\ path pc' = path pc.
Proof.
  intros Hs Hin.
  destruct (OrderLemmas.search_exact _ _ _ _ Hs Hin) as [p [Ep Hp]].
  unfold Main.find. cbv zeta. rewrite Ep, Hp, String.eqb_refl.
  exists p. split; [reflexivity|exact Hp].
Qed.

End ExactLemmas.

(** ** Helper lemmas for the matchers of handler.go *)

Module HelperLemmas.

Lemma rules_find_spec_aux prset q pc sub :
  Rules.find prset q = Some (pc, sub) ->
  exists prefix rule name, In (prefix, rule) prset
    /\ path pc = prefix ++ name /\ q = path pc ++ sub
    /\ Index name "/" = None /\ (sub = "" \/ exists r, sub = "/" ++ r)
    /\ repo pc = Replace (Rules.repoSubst rule) (Rules.placeholder rule) name
    /\ display pc = Replace (Rules.rule_display rule) (Rules.placeholder rule) name
    /\ vcs pc = Rules.rule_vcs rule.
Proof.
  induction prset as [|[prefix rule] rest IH]; simpl; [discriminate|].
  destruct (HasPrefix q prefix) eqn:Hp; simpl.
  - intros H. injection H as Hm.
    apply StrLemmas.HasPrefix_spec in Hp.
    remember (str_drop (len prefix) q) as r eqn:Hr. clear Hr.
    unfold Rules.match_rule in Hm. rewrite Hp, StrLemmas.TrimPrefix_app in Hm.
    destruct (Rules.splitSubpath r) as [name subPath] eqn:Es.
    destruct (RulesLemmas.splitSubpath_ok _ _ _ Es) as [Hn [Hi Hs]].
    injection Hm as <- <-. simpl.
    rewrite Hp, Hn, StrLemmas.app_assoc_s, StrLemmas.TrimSuffix_app.
    exists prefix, rule, name. repeat split; auto.
  - intros H. destruct (IH H) as [p [ru [n [Hin Hrest]]]].
    exists p, ru, n. split; [right; exact Hin|exact Hrest].
Qed.

Lemma rules_find_none_aux prset q :
  Rules.find prset q = None <->
  forall prefix rule, In (prefix, rule) prset -> HasPrefix q prefix = false.
Proof.
  induction prset as [|[prefix rule] rest IH]; simpl.
  - split; [intros _ p r []|reflexivity].
  - destruct (HasPrefix q prefix) eqn:Hp; simpl.
    + split; [discriminate|]. intros H. rewrite (H prefix rule (or_introl eq_refl)) in Hp.
      discriminate.
    + rewrite IH. split.
      * intros H p r [E|Hin]; [injection E as <- <-; exact Hp|exact (H p r Hin)].
      * intros H p r Hin. exact (H p r (or_intror Hin)).
Qed.

Lemma main_find_sound_aux pset q :
  match Main.find pset q with
  | (Some pc, sub) =>
      In pc pset /\ ((q = path pc /\ sub = "") \/ q = path pc ++ "/" ++ sub)
  | (None, sub) => sub = ""
  end.
Proof.
  unfold Main.find.
  set (i := Search _ _).
  assert (Hfast : match match i with
                        | S i' =>
                            match nth_error pset i' with
                            | Some pc =>
                                if HasPrefix q (path pc ++ "/")
                                then (Some pc, str_drop (len (path pc) + 1) q)
                                else (None, "")
                            | None => (None, "")
                            end
                        | O => (None, "")
                        end with
                  | (Some pc, sub) =>
                      In pc pset /\ ((q = path pc /\ sub = "") \/ q = path pc ++ "/" ++ sub)
                  | (None, sub) => sub = ""
                  end).
  { destruct i as [|i']; [reflexivity|].
    destruct (nth_error pset i') as [p'|] eqn:Ei'; [|reflexivity].
    destruct (HasPrefix q (path p' ++ "/")) eqn:Hp; [|reflexivity].
    split; [exact (nth_error_In _ _ Ei')|right].
    apply StrLemmas.HasPrefix_spec in Hp.
    rewrite StrLemmas.len_app in Hp. rewrite StrLemmas.app_assoc_s. exact Hp. }
  destruct (nth_error pset i) as [p|] eqn:Ei; [|exact Hfast].
  destruct (String.eqb_spec (path p) q) as [Eq|Ne]; [|exact Hfast].
  split; [exact (nth_error_In _ _ Ei)|left; auto].
Qed.

Lemma find_sound_aux {A} (path_of : A -> string) pset q :
  match find path_of pset q with
  | (Some pc, sub) =>
      In pc pset /\ (q = path_of pc ++ sub \/ q = path_of pc ++ "/" ++ sub)
  | (None, sub) => sub = ""
  end.
Proof.
  unfold find.
  set (i := Search _ _).
  assert (Hslow : match slow_loop path_of (firstn i pset) q None "" (len q) with
                  | (Some pc, sub) =>
                      In pc pset /\ (q = path_of pc ++ sub \/ q = path_of pc ++ "/" ++ sub)
                  | (None, sub) => sub = ""
                  end).
  { destruct (slow_loop path_of (firstn i pset) q None "" (len q)) as [r s] eqn:E.
    pose proof (FindLemmas.slow_loop_sound _ _ _ _ _ _ _ _ E (le_n _)
                  (fun p H => ltac:(discriminate H)) (fun _ => eq_refl)) as R.
    destruct r as [p|]; [|exact R].
    destruct R as [[Hin|Hx] Hq]; [|discriminate].
    split; [exact (Handler001Facts.firstn_in _ _ _ Hin)|left; exact Hq]. }
  destruct (nth_error pset i) as [p|] eqn:Ei.
  - destruct (String.eqb_spec (path_of p) q) as [Eq|Ne].
    + split; [exact (nth_error_In _ _ Ei)|left].
      rewrite StrLemmas.app_empty_s. symmetry. exact Eq.
    + destruct i as [|i']; [exact Hslow|].
      destruct (nth_error pset i') as [p'|] eqn:Ei'; [|exact Hslow].
      destruct (HasPrefix q (path_of p' ++ "/")) eqn:Hp; [|exact Hslow].
      split; [exact (nth_error_In _ _ Ei')|right].
      apply StrLemmas.HasPrefix_spec in Hp.
      rewrite StrLemmas.len_app in Hp. rewrite StrLemmas.app_assoc_s. exact Hp.
  - destruct i as [|i']; [exact Hslow|].
    destruct (nth_error pset i') as [p'|] eqn:Ei'; [|exact Hslow].
    destruct (HasPrefix q (path_of p' ++ "/")) eqn:Hp; [|exact Hslow].
    split; [exact (nth_error_In _ _ Ei')|right].
    apply StrLemmas.HasPrefix_spec in Hp.
    rewrite StrLemmas.len_app in Hp. rewrite StrLemmas.app_assoc_s. exact Hp.
Qed.

(** Two members of a list with the same key are equal when the keys of
    the list are distinct. *)
Lemma nodup_key_eq {A B} (f : A -> B) (l : list A) x y :
  NoDup (map f l) -> In x l -> In y l -> f x = f y -> x = y.
Proof.
  induction l as [|z l IH]; simpl; [contradiction|].
  intros Hn Hx Hy Hf. inversion Hn as [|? ? Hz Hn']; subst.
  destruct Hx as [<-|Hx]; destruct Hy as [<-|Hy]; auto.
  - exfalso. apply Hz. rewrite Hf. apply in_map. exact Hy.
  - exfalso. apply Hz. rewrite <- Hf. apply in_map. exact Hx.
Qed.

End HelperLemmas.

(** * Further properties of the code *)

(** [splitSubpath] cuts a name at its first "/": the two parts put back
    together give the name, the first part holds no "/", and the second
    is empty or starts with "/". *)
Theorem splitSubpath_spec name a b :
  Rules.splitSubpath name = (a, b) ->
  name = a ++ b /\ Index a "/" = None /\ (b = "" \/ exists r, b = "/" ++ r).
Proof. apply RulesLemmas.splitSubpath_ok. Qed.

Lemma splitSubpath_spec_witness :
  "foo/bar/baz" = "foo" ++ "/bar/baz" /\ Index "foo" "/" = None
  /\ ("/bar/baz" = "" \/ exists r, "/bar/baz" = "/" ++ r).
Proof. apply splitSubpath_spec. vm_compute. reflexivity. Defined.

(** When [findStructure] accepts a string, the string is the returned
    prefix, placeholder and suffix put together; the prefix holds no "{";
    the placeholder is "{" x "}" with x non-empty and free of "}"; and
    the suffix holds neither brace. *)
Theorem findStructure_spec m prefix ph suffix :
  Rules.findStructure m = Ok (prefix, ph, suffix) ->
  m = prefix ++ ph ++ suffix /\ Index prefix "{" = None
  /\ (exists x, ph = "{" ++ x ++ "}" /\ x <> "" /\ Index x "}" = None)
  /\ ContainsAny suffix "{}" = false.
Proof.
  unfold Rules.findStructure.
  destruct (Index m "{") as [i|] eqn:Ei; [|discriminate].
  remember (str_drop (i + 1) m) as s2 eqn:Hs2.
  destruct (Index s2 "}") as [[|k]|] eqn:Ek; try discriminate.
  destruct (ContainsAny (str_drop (S k + 1) s2) "{}") eqn:Ec; [discriminate|].
  intros H. injection H as <- <- <-.
  split; [|split; [exact (StrLemmas.Index_char_take _ _ _ Ei)|split; [|exact Ec]]].
  - assert (E2 : str_drop i m
                 = ("{" ++ str_take (S k) s2 ++ "}") ++ str_drop (S k + 1) s2).
    { rewrite (StrLemmas.drop_char m i "{")
        by (apply StrLemmas.Index_some_prefix; exact Ei).
      rewrite <- Hs2.
      change (String "{" s2
              = String "{" ((str_take (S k) s2 ++ "}") ++ str_drop (S k + 1) s2)).
      f_equal. rewrite <- StrLemmas.app_assoc_s.
      change ("}" ++ str_drop (S k + 1) s2) with (String "}" (str_drop (S k + 1) s2)).
      rewrite <- (StrLemmas.drop_char s2 (S k) "}")
        by (apply StrLemmas.Index_some_prefix; exact Ek).
      symmetry. apply StrLemmas.take_drop. }
    rewrite <- (StrLemmas.take_drop i m) at 1. rewrite E2. reflexivity.
  - exists (str_take (S k) s2). split; [reflexivity|]. split.
    + destruct s2 as [|d r]; [discriminate|]. simpl. discriminate.
    + exact (StrLemmas.Index_char_take _ _ _ Ek).
Qed.

Lemma findStructure_spec_witness :
  "/gh/{user}" = "/gh/" ++ "{user}" ++ "" /\ Index "/gh/" "{" = None
  /\ (exists x, "{user}" = "{" ++ x ++ "}" /\ x <> "" /\ Index x "}" = None)
  /\ ContainsAny "" "{}" = false.
Proof. apply findStructure_spec. vm_compute. reflexivity. Defined.

(** A mount synthesised by [pathConfigRuleSet.find] comes from a rule of
    the set whose literal prefix starts the request: its path is that
    prefix followed by a name holding no "/", the request is its path
    followed by the subpath, the subpath is empty or starts with "/", and
    its repository and display are the rule's templates with the
    placeholder replaced by the name, with the rule's VCS. *)
Theorem rules_find_spec prset q pc sub :
  Rules.find prset q = Some (pc, sub) ->
  exists prefix rule name, In (prefix, rule) prset
    /\ path pc = prefix ++ name /\ q = path pc ++ sub
    /\ Index name "/" = None /\ (sub = "" \/ exists r, sub = "/" ++ r)
    /\ repo pc = Replace (Rules.repoSubst rule) (Rules.placeholder rule) name
    /\ display pc = Replace (Rules.rule_display rule) (Rules.placeholder rule) name
    /\ vcs pc = Rules.rule_vcs rule.
Proof. apply HelperLemmas.rules_find_spec_aux. Qed.

Lemma rules_find_spec_witness :
  exists prefix rule name, In (prefix, rule) Fixtures.gh_gl_rules
    /\ path (mkPathConfig "/gh/acme" "https://github.com/acme" "" "git") = prefix ++ name
    /\ "/gh/acme/tool" = path (mkPathConfig "/gh/acme" "https://github.com/acme" "" "git")
                         ++ "/tool"
    /\ Index name "/" = None /\ ("/tool" = "" \/ exists r, "/tool" = "/" ++ r)
    /\ repo (mkPathConfig "/gh/acme" "https://github.com/acme" "" "git")
       = Replace (Rules.repoSubst rule) (Rules.placeholder rule) name
    /\ display (mkPathConfig "/gh/acme" "https://github.com/acme" "" "git")
       = Replace (Rules.rule_display rule) (Rules.placeholder rule) name
    /\ vcs (mkPathConfig "/gh/acme" "https://github.com/acme" "" "git") = Rules.rule_vcs rule.
Proof. apply rules_find_spec. vm_compute. reflexivity. Defined.

(** [pathConfigRuleSet.find] finds no rule exactly when no literal
    prefix of the set starts the request path. *)
Theorem rules_find_none prset q :
  Rules.find prset q = None <->
  forall prefix rule, In (prefix, rule) prset -> HasPrefix q prefix = false.
Proof. apply HelperLemmas.rules_find_none_aux. Qed.

(** The mount [pathConfigSet.find] (part_003) and [PathConfigs.find]
    (part_001) return is one of the set and starts the request: the
    request is the mount's path followed by the subpath, possibly with a
    "/" between them. With no mount found, the subpath is empty. No
    sortedness is needed for this. *)
Theorem find_sound {A} (path_of : A -> string) pset q :
  match find path_of pset q with
  | (Some pc, sub) =>
      In pc pset /\ (q = path_of pc ++ sub \/ q = path_of pc ++ "/" ++ sub)
  | (None, sub) => sub = ""
  end.
Proof. apply HelperLemmas.find_sound_aux. Qed.

(** The lookup of handler.go ([pathConfigSet.find]) returns a mount of
    the set either whose path is the request (with the empty subpath) or
    whose path followed by "/" and the subpath is the request; with no
    mount found the subpath is empty. *)
Theorem main_find_sound pset q :
  match Main.find pset q with
  | (Some pc, sub) =>
      In pc pset /\ ((q = path pc /\ sub = "") \/ q = path pc ++ "/" ++ sub)
  | (None, sub) => sub = ""
  end.
Proof. apply HelperLemmas.main_find_sound_aux. Qed.

(** In a set sorted by path (as [sort.Sort] leaves it), the lookup of
    part_003 and part_001 resolves the exact path of any mount of the set
    to a mount with that path and the empty subpath. *)
Theorem find_exact {A} (path_of : A -> string) pset pc :
  Sorted (Predicates.le_key path_of) pset -> In pc pset ->
  exists pc', find path_of pset (path_of pc) = (Some pc', "") /\ path_of pc' = path_of pc.
Proof. apply ExactLemmas.find_exact_aux. Qed.

Lemma find_exact_witness :
  exists pc', find path (sort_by path (map Fixtures.pc_at ["/abc"; "/portmidi"; "/xyz"]))
                (path (Fixtures.pc_at "/portmidi")) = (Some pc', "")
              /\ path pc' = path (Fixtures.pc_at "/portmidi").
Proof.
  apply find_exact.
  - apply OrderLemmas.sort_by_sorted.
  - vm_compute. auto 10.
Defined.

(** The same for the lookup of handler.go. *)
Theorem main_find_exact pset pc :
  Sorted (Predicates.le_key path) pset -> In pc pset ->
  exists pc', Main.find pset (path pc) = (Some pc', "") /\ path pc' = path pc.
Proof. apply ExactLemmas.main_find_exact_aux. Qed.

Lemma main_find_exact_witness :
  exists pc', Main.find (sort_by path (map Fixtures.pc_at ["/abc"; "/portmidi"; "/xyz"]))
                (path (Fixtures.pc_at "/xyz")) = (Some pc', "")
              /\ path pc' = path (Fixtures.pc_at "/xyz").
Proof.
  apply main_find_exact.
  - apply OrderLemmas.sort_by_sorted.
  - vm_compute. auto 10.
Defined.

(** [New] (part_003) fails exactly when the global cache age is negative
    or some entry has a VCS outside {bzr, git, hg, svn}, or no VCS and a
    repository that is not on GitHub. *)
Theorem New_error_iff config :
  (exists err, Handler003.New config = Err err) <->
  (exists a, Handler003.CacheAge config = Some a /\ (a < 0)%Z)
  \/ exists k e, In (k, e) (Handler003.Paths config) /\ Predicates.entry_rejected e.
Proof.
  unfold Handler003.New.
  pose proof (LoadLemmas.new_loop_err (Handler003.Paths config) []) as Hl.
  destruct (Handler003.CacheAge config) as [a|].
  - destruct (Z.ltb_spec a 0) as [Hn|Hn].
    + split; [intros _; left; eauto|intros _; eexists; reflexivity].
    + destruct (Handler003.new_loop _ _) as [ps|err].
      * split; [intros [err H]; discriminate|].
        intros [[b [Eb Hb]]|H]; [injection Eb as <-; lia|].
        destruct (proj2 Hl H) as [err E]; discriminate.
      * split; [intros _; right; apply Hl; eexists; reflexivity|].
        intros _; eexists; reflexivity.
  - destruct (Handler003.new_loop _ _) as [ps|err].
    + split; [intros [err H]; discriminate|].
      intros [[b [Eb _]]|H]; [discriminate|].
      destruct (proj2 Hl H) as [err E]; discriminate.
    + split; [intros _; right; apply Hl; eexists; reflexivity|].
      intros _; eexists; reflexivity.
Qed.

(** A handler built by [New] holds one mount per entry, sorted by path:
    the entry's key less one trailing "/", its repository, its display
    (or the one inferred from a GitHub or Bitbucket repository) and its
    VCS ("git" when none was given). *)
Theorem New_mounts config h :
  Handler003.New config = Ok h ->
  Sorted (Predicates.le_key path) (Handler003.paths h)
  /\ List.length (Handler003.paths h) = List.length (Handler003.Paths config)
  /\ forall pc, In pc (Handler003.paths h) <->
       exists k e, In (k, e) (Handler003.Paths config)
         /\ pc = mkPathConfig (TrimSuffix k "/") (Repo e)
                  (infer_display (Repo e) (Display e))
                  (if String.eqb (VCS e) "" then "git" else VCS e).
Proof.
  unfold Handler003.New. intros H.
  assert (Hl : exists out, Handler003.new_loop (Handler003.Paths config) [] = Ok out
                           /\ Handler003.paths h = sort_by path out).
  { destruct (Handler003.CacheAge config) as [a|];
      [destruct (a <? 0)%Z; [discriminate|]|];
      destruct (Handler003.new_loop _ _) as [out|err]; try discriminate;
      injection H as <-; exists out; auto. }
  destruct Hl as [out [E ->]].
  destruct (LoadLemmas.loaded_paths _ _ E) as [Hs [Hlen [Hin _]]].
  split; [exact Hs|split; [exact Hlen|exact Hin]].
Qed.

Lemma New_mounts_witness :
  Sorted (Predicates.le_key path)
    (Handler003.paths (match Handler003.New Fixtures.yaml_config with
                       | Ok h => h
                       | Err _ => Handler003.mkHandler "" "" []
                       end))
  /\ List.length (Handler003.paths (match Handler003.New Fixtures.yaml_config with
                       | Ok h => h
                       | Err _ => Handler003.mkHandler "" "" []
                       end)) = List.length (Handler003.Paths Fixtures.yaml_config)
  /\ forall pc, In pc (Handler003.paths (match Handler003.New Fixtures.yaml_config with
                       | Ok h => h
                       | Err _ => Handler003.mkHandler "" "" []
                       end)) <->
       exists k e, In (k, e) (Handler003.Paths Fixtures.yaml_config)
         /\ pc = mkPathConfig (TrimSuffix k "/") (Repo e)
                  (infer_display (Repo e) (Display e))
                  (if String.eqb (VCS e) "" then "git" else VCS e).
Proof. apply New_mounts. vm_compute. reflexivity. Defined.

(** A handler built by [New] serves every entry at its own path: when
    no two keys are equal less one trailing "/", a request for the entry's
    key less that "/" (a path starting with "/") gets the metadata page of
    that entry's mount (its repository, its display as given or inferred,
    its VCS or "git"), with the empty subpath and the handler's
    Cache-Control value. *)
Theorem New_serves_each_mount config h k e hst :
  Handler003.New config = Ok h -> In (k, e) (Handler003.Paths config) ->
  NoDup (map (fun ke => TrimSuffix (fst ke) "/") (Handler003.Paths config)) ->
  HasPrefix (TrimSuffix k "/") "/" = true ->
  Handler003.ServeHTTP h (mkRequest (TrimSuffix k "/") hst)
  = RespVanity (Some (Handler003.cacheControl h))
      (Handler003.host h (mkRequest (TrimSuffix k "/") hst) ++ TrimSuffix k "/") ""
      (Repo e) (infer_display (Repo e) (Display e))
      (if String.eqb (VCS e) "" then "git" else VCS e).
Proof.
  intros Hn Hin Hnd Hs.
  destruct (LoadLemmas.New_ok _ _ Hn) as [out [E Hp]].
  destruct (LoadLemmas.loaded_paths _ _ E) as [Hsort [_ [Hiff Hall]]].
  rewrite <- Hp in Hsort, Hiff, Hall.
  destruct (ExactLemmas.find_exact_aux _ _ _ Hsort (Hall _ _ Hin)) as [pc' [Hf Hpath]].
  pose proof (HelperLemmas.find_sound_aux path (Handler003.paths h)
                (path (Predicates.loaded_mount k e))) as Hso.
  rewrite Hf in Hso. destruct Hso as [Hin' _].
  destruct (proj1 (Hiff pc') Hin') as [k' [e' [Hin2 ->]]].
  change (path (Predicates.loaded_mount k' e')) with (TrimSuffix k' "/") in Hpath.
  change (path (Predicates.loaded_mount k e)) with (TrimSuffix k "/") in Hpath, Hf.
  assert (Heq : (k', e') = (k, e))
    by exact (HelperLemmas.nodup_key_eq (fun ke => TrimSuffix (fst ke) "/") _ _ _
                Hnd Hin2 Hin Hpath).
  injection Heq as -> ->.
  unfold Handler003.ServeHTTP. simpl URLPath. rewrite Hs, Hf. reflexivity.
Qed.

Lemma New_serves_each_mount_witness :
  Handler003.ServeHTTP
    (match Handler003.New Fixtures.yaml_config with
     | Ok h => h | Err _ => Handler003.mkHandler "" "" [] end)
    (mkRequest (TrimSuffix "/yaml" "/") "localhost")
  = RespVanity (Some (Handler003.cacheControl
                        (match Handler003.New Fixtures.yaml_config with
                         | Ok h => h | Err _ => Handler003.mkHandler "" "" [] end)))
      (Handler003.host (match Handler003.New Fixtures.yaml_config with
                        | Ok h => h | Err _ => Handler003.mkHandler "" "" [] end)
         (mkRequest (TrimSuffix "/yaml" "/") "localhost") ++ TrimSuffix "/yaml" "/")
      "" "https://github.com/go-yaml/yaml"
      (infer_display "https://github.com/go-yaml/yaml" "")
      (if String.eqb "" "" then "git" else "").
Proof.
  apply (New_serves_each_mount Fixtures.yaml_config _ "/yaml"
           (mkConfigPath "https://github.com/go-yaml/yaml" "" "")).
  - vm_compute. reflexivity.
  - simpl. left. reflexivity.
  - vm_compute. repeat constructor; simpl; intuition discriminate.
  - vm_compute. reflexivity.
Defined.

(** A handler built by [newHandler] (handler.go) keeps the configured
    host, holds its static mounts sorted by path, exactly one per entry (key less
    one trailing "/", repository, display as given or inferred, VCS with
    "git" when none was given), and holds a rule map whose literal
    prefixes are distinct and never prefixes of one another. *)
Theorem main_newHandler_ok c h :
  Main.newHandler c = Ok h ->
  Main.host h = Main.parsed_Host c
  /\ Sorted (Predicates.le_key path) (Main.paths h)
  /\ List.length (Main.paths h) = List.length (Main.parsed_Paths c)
  /\ (forall pc, In pc (Main.paths h) <->
        exists k e, In (k, e) (Main.parsed_Paths c)
          /\ pc = mkPathConfig (TrimSuffix k "/") (Repo e)
                   (infer_display (Repo e) (Display e))
                   (if String.eqb (VCS e) "" then "git" else VCS e))
  /\ Predicates.unambiguous (Main.pathRules h).
Proof.
  unfold Main.newHandler, Main.parsePaths. intros H.
  destruct (Handler003.new_loop _ _) as [out|err] eqn:E; [|discriminate].
  destruct (Rules.parsePathRules _) as [rules|err] eqn:R; [|discriminate].
  injection H as <-. simpl.
  destruct (LoadLemmas.loaded_paths _ _ E) as [Hs [Hlen [Hin _]]].
  split; [reflexivity|split; [exact Hs|split; [exact Hlen|split; [exact Hin|]]]].
  exact (RulesFacts.parsePathRules_unambiguous _ _ R).
Qed.

Lemma main_newHandler_ok_witness :
  let c := Main.mkParsed "example.com" (Handler003.Paths Fixtures.yaml_config)
             Fixtures.gh_gl_config in
  let h := match Main.newHandler c with
           | Ok h => h | Err _ => Main.mkHandler "" [] [] end in
  Main.host h = Main.parsed_Host c
  /\ Sorted (Predicates.le_key path) (Main.paths h)
  /\ List.length (Main.paths h) = List.length (Main.parsed_Paths c)
  /\ (forall pc, In pc (Main.paths h) <->
        exists k e, In (k, e) (Main.parsed_Paths c)
          /\ pc = mkPathConfig (TrimSuffix k "/") (Repo e)
                   (infer_display (Repo e) (Display e))
                   (if String.eqb (VCS e) "" then "git" else VCS e))
  /\ Predicates.unambiguous (Main.pathRules h).
Proof. intros c h. apply main_newHandler_ok. vm_compute. reflexivity. Defined.

(** The handler of handler.go serves every static entry at its own path
    (its key less one trailing "/"), whatever wildcard rules it holds, as
    the static mounts are looked up first: when no two keys are equal less
    one trailing "/", the request gets the metadata page of that entry's
    mount (its repository, its display as given or inferred, its VCS or
    "git"), with the empty subpath and no Cache-Control header. *)
Theorem main_serves_each_static_mount c h k e r :
  Main.newHandler c = Ok h -> In (k, e) (Main.parsed_Paths c) ->
  NoDup (map (fun ke => TrimSuffix (fst ke) "/") (Main.parsed_Paths c)) ->
  URLPath r = TrimSuffix k "/" ->
  Main.ServeHTTP h r
  = RespVanity None (Main.Host h r ++ TrimSuffix k "/") ""
      (Repo e) (infer_display (Repo e) (Display e))
      (if String.eqb (VCS e) "" then "git" else VCS e).
Proof.
  unfold Main.newHandler, Main.parsePaths. intros H Hin Hnd Hr.
  destruct (Handler003.new_loop _ _) as [out|err] eqn:E; [|discriminate].
  destruct (Rules.parsePathRules _) as [rules|err] eqn:R; [|discriminate].
  injection H as <-.
  destruct (LoadLemmas.loaded_paths _ _ E) as [Hs [_ [Hiff Hall]]].
  destruct (ExactLemmas.main_find_exact_aux _ _ Hs (Hall _ _ Hin)) as [pc' [Hf Hp]].
  pose proof (HelperLemmas.main_find_sound_aux (sort_by path out)
                (path (Predicates.loaded_mount k e))) as Hso.
  rewrite Hf in Hso. destruct Hso as [Hin' _].
  destruct (proj1 (Hiff pc') Hin') as [k' [e' [Hin2 ->]]].
  change (path (Predicates.loaded_mount k' e')) with (TrimSuffix k' "/") in Hp.
  change (path (Predicates.loaded_mount k e)) with (TrimSuffix k "/") in Hp, Hf.
  assert (Heq : (k', e') = (k, e))
    by exact (HelperLemmas.nodup_key_eq (fun ke => TrimSuffix (fst ke) "/") _ _ _
                Hnd Hin2 Hin Hp).
  injection Heq as -> ->.
  unfold Main.ServeHTTP. simpl Main.paths. rewrite Hr, Hf. reflexivity.
Qed.

Lemma main_serves_each_static_mount_witness :
  let c := Main.mkParsed "example.com" [("/gh/acme", Fixtures.portmidi)]
             Fixtures.gh_gl_config in
  let h := match Main.newHandler c with
           | Ok h => h | Err _ => Main.mkHandler "" [] [] end in
  Main.ServeHTTP h (mkRequest (TrimSuffix "/gh/acme" "/") "localhost")
  = RespVanity None (Main.Host h (mkRequest (TrimSuffix "/gh/acme" "/") "localhost")
                     ++ TrimSuffix "/gh/acme" "/") ""
      (Repo Fixtures.portmidi)
      (infer_display (Repo Fixtures.portmidi) (Display Fixtures.portmidi))
      (if String.eqb (VCS Fixtures.portmidi) "" then "git" else VCS Fixtures.portmidi).
Proof.
  intros c h. apply (main_serves_each_static_mount c h "/gh/acme" Fixtures.portmidi).
  - vm_compute. reflexivity.
  - simpl. left. reflexivity.
  - vm_compute. repeat constructor; simpl; intuition discriminate.
  - reflexivity.
Defined.

(** Every metadata page the handler of handler.go renders carries no
    Cache-Control header and comes from a matching mount: either a static
    mount of the handler, or a mount synthesised from a rule whose literal
    prefix starts the mount's path. The import path is the host followed
    by the mount's path, and the request is the mount's path followed by
    the subpath, possibly with a "/" between them. *)
Theorem main_ServeHTTP_vanity h r cc imp sub rp d v :
  Main.ServeHTTP h r = RespVanity cc imp sub rp d v ->
  cc = None
  /\ exists mp sep, imp = Main.Host h r ++ mp
       /\ URLPath r = mp ++ sep ++ sub /\ (sep = "" \/ sep = "/")
       /\ (In (mkPathConfig mp rp d v) (Main.paths h)
           \/ exists prefix rule, In (prefix, rule) (Main.pathRules h)
                /\ HasPrefix mp prefix = true).
Proof.
  unfold Main.ServeHTTP.
  pose proof (HelperLemmas.main_find_sound_aux (Main.paths h) (URLPath r)) as Hs.
  destruct (Main.find (Main.paths h) (URLPath r)) as [[pc|] s] eqn:F.
  - intros H. injection H as <- <- <- <- <- <-. split; [reflexivity|].
    destruct Hs as [Hin [[Hq ->]|Hq]].
    + exists (path pc), "". split; [reflexivity|]. split.
      * rewrite Hq. simpl. symmetry. apply StrLemmas.app_empty_s.
      * split; [left; reflexivity|left; destruct pc; exact Hin].
    + exists (path pc), "/". split; [reflexivity|]. split; [exact Hq|].
      split; [right; reflexivity|left; destruct pc; exact Hin].
  - destruct (Rules.find (Main.pathRules h) (URLPath r)) as [[pc s']|] eqn:R.
    + intros H. injection H as <- <- <- <- <- <-. split; [reflexivity|].
      destruct (HelperLemmas.rules_find_spec_aux _ _ _ _ R)
        as [prefix [rule [name [Hin [Hp [Hq _]]]]]].
      exists (path pc), "". split; [reflexivity|]. split; [exact Hq|].
      split; [left; reflexivity|right].
      exists prefix, rule. split; [exact Hin|]. rewrite Hp. apply StrLemmas.HasPrefix_app.
    + destruct (String.eqb _ _); discriminate.
Qed.

Lemma main_ServeHTTP_vanity_witness :
  let h := match Main.newHandler (Main.mkParsed "example.com" [] Fixtures.gh_gl_config) with
           | Ok h => h | Err _ => Main.mkHandler "" [] [] end in
  None = (None : option string)
  /\ exists mp sep, "example.com/gh/acme" = Main.Host h (mkRequest "/gh/acme/tool" "x") ++ mp
       /\ URLPath (mkRequest "/gh/acme/tool" "x") = mp ++ sep ++ "/tool"
       /\ (sep = "" \/ sep = "/")
       /\ (In (mkPathConfig mp "https://github.com/acme" "" "git") (Main.paths h)
           \/ exists prefix rule, In (prefix, rule) (Main.pathRules h)
                /\ HasPrefix mp prefix = true).
Proof. intros h. apply main_ServeHTTP_vanity. vm_compute. reflexivity. Defined.

(** The handler of handler.go answers "not found" exactly when the
    request is not "/", matches no static mount, and starts with no
    rule's literal prefix. *)
Theorem main_ServeHTTP_not_found h r :
  Main.ServeHTTP h r = RespNotFound <->
  URLPath r <> "/" /\ fst (Main.find (Main.paths h) (URLPath r)) = None
  /\ forall prefix rule, In (prefix, rule) (Main.pathRules h) ->
                         HasPrefix (URLPath r) prefix = false.
Proof.
  unfold Main.ServeHTTP.
  destruct (Main.find (Main.paths h) (URLPath r)) as [[pc|] s] eqn:F; simpl fst.
  - split; [discriminate|intros [_ [H _]]; discriminate].
  - pose proof (HelperLemmas.rules_find_none_aux (Main.pathRules h) (URLPath r)) as Hn.
    destruct (Rules.find (Main.pathRules h) (URLPath r)) as [[pc s']|] eqn:R.
    + split; [discriminate|]. intros [_ [_ H]].
      apply Hn in H. discriminate.
    + destruct (String.eqb_spec (URLPath r) "/") as [E|E].
      * split; [discriminate|intros [H _]; contradiction].
      * split; [intros _|reflexivity].
        split; [exact E|split; [reflexivity|apply Hn; reflexivity]].
Qed.

(** A redirect of the part_001 handler always has status 302 and keeps
    the request path: the request is the path of a mount of the handler
    that has a redirect target, followed by some rest, and the location
    is the redirect target followed by that same rest. *)
Theorem ServeHTTP001_redirect h r loc code :
  Handler001.ServeHTTP h r = RespRedirect loc code ->
  code = 302%Z
  /\ exists pc rest, In pc (Handler001.PathConfigs h) /\ Handler001.Redir pc <> ""
       /\ URLPath r = Handler001.Path pc ++ rest /\ loc = Handler001.Redir pc ++ rest.
Proof.
  unfold Handler001.ServeHTTP.
  pose proof (HelperLemmas.find_sound_aux Handler001.Path (Handler001.PathConfigs h) (URLPath r))
    as Hs.
  destruct (find Handler001.Path (Handler001.PathConfigs h) (URLPath r)) as [[pc|] s] eqn:F.
  - destruct Hs as [Hin Hq].
    unfold Handler001.dispatch.
    destruct (String.eqb_spec (Handler001.Redir pc) "") as [Hr|Hr]; simpl.
    + destruct (String.eqb _ _); discriminate.
    + destruct (Handler001.StringInSlices s (Handler001.RedirPaths pc)).
      * intros H. injection H as <- <-. split; [reflexivity|].
        assert (Hrest : exists rest, URLPath r = Handler001.Path pc ++ rest)
          by (destruct Hq as [Hq|Hq]; eexists; exact Hq).
        destruct Hrest as [rest Hrest].
        exists pc, rest. split; [exact Hin|split; [exact Hr|split; [exact Hrest|]]].
        rewrite Hrest, StrLemmas.TrimPrefix_app. reflexivity.
      * destruct (String.eqb _ _); discriminate.
  - destruct (String.eqb _ _); discriminate.
Qed.

Lemma ServeHTTP001_redirect_witness :
  302%Z = 302%Z
  /\ exists pc rest, In pc (Handler001.PathConfigs Fixtures.handler001)
       /\ Handler001.Redir pc <> ""
       /\ URLPath (mkRequest "/dl/releases/v1.tgz" "x") = Handler001.Path pc ++ rest
       /\ "https://dl.example.com/releases/v1.tgz" = Handler001.Redir pc ++ rest.
Proof. apply ServeHTTP001_redirect. vm_compute. reflexivity. Defined.

(** Each entry of a configuration loaded by [newHandler] (part_001)
    yields a mount whose path is the key less one trailing "/", whose
    redirect markers are the entry's own or, when it has none, the global
    ones, whose display is the entry's or the one inferred from a GitHub
    or Bitbucket repository, and which keeps the entry's cache age,
    repository and redirect target. *)
Theorem newHandler001_entry_fields c h k e :
  Handler001.newHandler c = Ok h -> In (k, e) (Handler001.cfg_Paths c) ->
  exists pc, In pc (Handler001.PathConfigs h)
    /\ Handler001.Path pc = TrimSuffix k "/"
    /\ Handler001.RedirPaths pc = (match Handler001.RedirPaths e with
                                   | [] => Handler001.cfg_RedirPaths c
                                   | l => l
                                   end)
    /\ Handler001.Display pc = infer_display (Handler001.Repo e) (Handler001.Display e)
    /\ Handler001.CacheAge pc = Handler001.CacheAge e
    /\ Handler001.Repo pc = Handler001.Repo e
    /\ Handler001.Redir pc = Handler001.Redir e.
Proof.
  unfold Handler001.newHandler. intros H Hin.
  destruct (Handler001.load_loop _ _ _) as [out|err] eqn:E; [|discriminate].
  injection H as <-. simpl.
  destruct (proj2 (Handler001Facts.load_loop_ok _ _ _ _ E) k e Hin) as [pc [Hpc Hl]].
  exists pc. split.
  { apply (Permutation_in _ (Permutation_sym (Handler001Facts.sort_by_perm _ _))). exact Hpc. }
  assert (Hb : pc = Handler001.prepare_entry
                      (match Handler001.cfg_CacheAge c with
                       | None => "public, max-age=86400"
                       | Some a => max_age_N a end)
                      (Handler001.cfg_RedirPaths c) k e
               \/ pc = Handler001.set_VCS (Handler001.prepare_entry
                      (match Handler001.cfg_CacheAge c with
                       | None => "public, max-age=86400"
                       | Some a => max_age_N a end)
                      (Handler001.cfg_RedirPaths c) k e) "git").
  { unfold Handler001.load_entry in Hl.
    destruct (negb _); [destruct (unknown_vcs _); [discriminate|]|].
    - injection Hl as <-. left; reflexivity.
    - destruct (HasPrefix _ _); [injection Hl as <-; right; reflexivity|].
      destruct (_ && _); [injection Hl as <-; left; reflexivity|discriminate]. }
  clear Hl E Hpc Hin.
  unfold Handler001.prepare_entry in Hb. cbn zeta in Hb.
  destruct Hb as [->| ->];
    unfold Handler001.set_VCS, Handler001.set_Display, Handler001.set_cacheControl,
      Handler001.set_RedirPaths, Handler001.set_Path; cbn;
    destruct (Handler001.RedirPaths e) as [|m ms];
    destruct (Handler001.CacheAge e); cbn; repeat split; reflexivity.
Qed.

Lemma newHandler001_entry_fields_witness :
  exists pc, In pc (Handler001.PathConfigs Fixtures.handler001)
    /\ Handler001.Path pc = TrimSuffix "/portmidi" "/"
    /\ Handler001.RedirPaths pc = (match Handler001.RedirPaths
                                     (Fixtures.entry001 "https://github.com/rakyll/portmidi"
                                        "" "" (Some 0%N) []) with
                                   | [] => Handler001.cfg_RedirPaths Fixtures.config001
                                   | l => l
                                   end)
    /\ Handler001.Display pc = infer_display "https://github.com/rakyll/portmidi" ""
    /\ Handler001.CacheAge pc = Some 0%N
    /\ Handler001.Repo pc = "https://github.com/rakyll/portmidi"
    /\ Handler001.Redir pc = "".
Proof.
  apply (newHandler001_entry_fields Fixtures.config001 Fixtures.handler001 "/portmidi"
           (Fixtures.entry001 "https://github.com/rakyll/portmidi" "" "" (Some 0%N) [])).
  - vm_compute. reflexivity.
  - simpl. left. reflexivity.
Defined.
